(** * Huffman coding: a shallow embedding of [huffman_coding.py]

    The development follows the Python module top to bottom: the [Node]
    class, the [heapq] operations the module calls, the methods of
    [HuffmanCoding], and then the properties of the codec.

    Conventions.
    - A Python [str] of text is a [list char] for an arbitrary countable
      alphabet [char] (Python characters are compared by value only).
    - A bit string, that is a Python [str] made of the characters '0' and
      '1', is a [list bool] ([true] for '1').
    - Python integers that are never negative (byte values, [pad_amount])
      are in [N]; slice bounds, which may be negative, are in [Z].
    - A Python exception is [None] in the [option] monad.
    - The dictionaries [__codes_hash_table] and [__reverse_codes_hash_table]
      are [gmap]s; the [Counter], whose iteration order decides the order of
      the heap pushes, is an insertion-ordered association list.
    - The file I/O of [compress] and [decompress] (paths, [rstrip], printing)
      is outside the model: [compress] takes the text to encode and returns
      the bytes written, [decompress] takes the bytes read and returns the
      text written. *)

From Stdlib Require Import ZArith NArith Ascii String Lia.
From stdpp Require Import gmap strings list fin_maps.

Open Scope nat_scope.
Set Warnings "-register-all".

(** ** Python helpers used by the module *)

(** [l[start:stop]] for a step of one: negative bounds count from the end,
    and both bounds are clamped to [0 .. len(l)]. *)
Definition py_index (len : nat) (i : Z) : nat :=
  if (i <? 0)%Z then Z.to_nat (Z.max 0 (Z.of_nat len + i))
  else Nat.min len (Z.to_nat i).

Definition py_slice {A} (l : list A) (start stop : Z) : list A :=
  let lo := py_index (length l) start in
  let hi := py_index (length l) stop in
  take (hi - lo) (drop lo l).

(** [int(s, 2)]: [ValueError] on the empty string. *)
Definition bit_value (b : bool) : N := if b then 1%N else 0%N.

Definition int2 (s : list bool) : option N :=
  match s with
  | [] => None
  | _ => Some (fold_left (fun acc b => (2 * acc + bit_value b)%N) s 0%N)
  end.

(** [bin(n)[2:]]: the binary digits of [n], most significant first. *)
Fixpoint pos_digits (p : positive) : list bool :=
  match p with
  | xH => [true]
  | xO q => pos_digits q ++ [false]
  | xI q => pos_digits q ++ [true]
  end.

Definition bin_digits (n : N) : list bool :=
  match n with
  | N0 => [false]
  | Npos p => pos_digits p
  end.

(** [s.rjust(width, '0')] *)
Definition rjust0 (width : nat) (s : list bool) : list bool :=
  replicate (width - length s) false ++ s.

(** ["{0:08b}".format(n)] and [bin(n)[2:].rjust(8, '0')] are the same
    string. *)
Definition format_08b (n : N) : list bool := rjust0 8 (bin_digits n).

(** [range(0, n, 8)] *)
Definition range8 (n : nat) : list nat :=
  (fun j => 8 * j) <$> seq 0 ((n + 7) / 8).

(** [bytes(bin_array)]: [ValueError] unless every value is in [range(256)]. *)
Definition bytes (bin_array : list N) : option (list N) :=
  if forallb (fun b => (b <? 256)%N) bin_array then Some bin_array else None.

Section Huffman.
Context `{Countable char}.

(** ** class Node *)

Inductive Node : Type :=
  mkNode { key : option char; freq : nat; left : option Node; right : option Node }.

(** [Node(key, freq)] *)
Definition new_Node (k : option char) (f : nat) : Node := mkNode k f None None.

(** [Node.__lt__] *)
Definition Node_lt (self other : Node) : bool := freq self <? freq other.

(** [Node.__eq__] *)
Definition Node_eq (self other : Node) : bool := freq self =? freq other.

(** ** heapq

    [heappush], [heappop] and their helpers [_siftdown] and [_siftup], as in
    CPython's [Lib/heapq.py], on a list of nodes compared with [Node.__lt__].
    The two [while] loops run on fuel; the position moves strictly towards
    the root (resp. the leaves) at each turn, so [pos] (resp. [endpos]) turns
    are enough. A list index is always in range in these loops: the [None]
    branches of the lookups are not reached. *)

Fixpoint _siftdown_loop (fuel : nat) (heap : list Node) (startpos pos : nat)
    (newitem : Node) : list Node * nat :=
  match fuel with
  | O => (heap, pos)
  | S fuel' =>
      if bool_decide (startpos < pos) then
        let parentpos := (pos - 1) / 2 in
        match heap !! parentpos with
        | Some parent =>
            if Node_lt newitem parent
            then _siftdown_loop fuel' (<[pos := parent]> heap) startpos parentpos newitem
            else (heap, pos)
        | None => (heap, pos)
        end
      else (heap, pos)
  end.

Definition _siftdown (heap : list Node) (startpos pos : nat) : list Node :=
  match heap !! pos with
  | Some newitem =>
      let '(heap', pos') := _siftdown_loop pos heap startpos pos newitem in
      <[pos' := newitem]> heap'
  | None => heap
  end.

(** The test [rightpos < endpos and not heap[childpos] < heap[rightpos]]. *)
Definition right_is_smaller (heap : list Node) (endpos childpos : nat) : bool :=
  bool_decide (childpos + 1 < endpos) &&
  match heap !! childpos, heap !! (childpos + 1) with
  | Some c, Some r => negb (Node_lt c r)
  | _, _ => false
  end.

Fixpoint _siftup_loop (fuel : nat) (heap : list Node) (endpos pos : nat)
    : list Node * nat :=
  match fuel with
  | O => (heap, pos)
  | S fuel' =>
      let childpos := 2 * pos + 1 in
      if bool_decide (childpos < endpos) then
        let childpos :=
          if right_is_smaller heap endpos childpos then childpos + 1 else childpos in
        match heap !! childpos with
        | Some child => _siftup_loop fuel' (<[pos := child]> heap) endpos childpos
        | None => (heap, pos)
        end
      else (heap, pos)
  end.

Definition _siftup (heap : list Node) (pos : nat) : list Node :=
  let endpos := length heap in
  let startpos := pos in
  match heap !! pos with
  | Some newitem =>
      let '(heap', pos') := _siftup_loop endpos heap endpos pos in
      _siftdown (<[pos' := newitem]> heap') startpos pos'
  | None => heap
  end.

Definition heappush (heap : list Node) (item : Node) : list Node :=
  _siftdown (heap ++ [item]) 0 (length heap).

(** [heappop]: [IndexError] on an empty heap. *)
Definition heappop (heap : list Node) : option (Node * list Node) :=
  lastelt ← last heap;
  let heap := removelast heap in
  match heap with
  | returnitem :: _ => Some (returnitem, _siftup (<[0 := lastelt]> heap) 0)
  | [] => Some (lastelt, [])
  end.

(** ** class HuffmanCoding *)

Record HuffmanCoding : Type := mkHuffmanCoding {
  min_heap : list Node;
  codes_hash_table : gmap char (list bool);
  reverse_codes_hash_table : gmap (list bool) char
}.

(** [HuffmanCoding.__init__] *)
Definition new_HuffmanCoding : HuffmanCoding := mkHuffmanCoding [] ∅ ∅.

Definition set_min_heap (self : HuffmanCoding) (h : list Node) : HuffmanCoding :=
  mkHuffmanCoding h (codes_hash_table self) (reverse_codes_hash_table self).

(** [Counter(text)]: a dictionary in insertion order, the order of first
    occurrence in [text]. *)
Fixpoint Counter_incr (c : char) (d : list (char * nat)) : list (char * nat) :=
  match d with
  | [] => [(c, 1)]
  | (k, n) :: d' =>
      if decide (k = c) then (k, S n) :: d' else (k, n) :: Counter_incr c d'
  end.

Definition Counter (text : list char) : list (char * nat) :=
  fold_left (fun d c => Counter_incr c d) text [].

Definition __make_freq_dict (text : list char) : list (char * nat) := Counter text.

Definition __build_heap (self : HuffmanCoding) (freq_dict : list (char * nat))
    : HuffmanCoding :=
  set_min_heap self
    (fold_left (fun heap kf => heappush heap (new_Node (Some kf.1) kf.2))
       freq_dict (min_heap self)).

(** The [while len(self.__min_heap) > 1] loop; every turn shortens the heap
    by one, so [len(self.__min_heap)] turns are enough. *)
Fixpoint __build_tree_loop (fuel : nat) (heap : list Node) : option (list Node) :=
  match fuel with
  | O => Some heap
  | S fuel' =>
      if bool_decide (1 < length heap) then
        '(node_1, heap) ← heappop heap;
        '(node_2, heap) ← heappop heap;
        let freq_sum := freq node_1 + freq node_2 in
        let new_node := mkNode None freq_sum (Some node_1) (Some node_2) in
        __build_tree_loop fuel' (heappush heap new_node)
      else Some heap
  end.

Definition __build_tree (self : HuffmanCoding) : option HuffmanCoding :=
  heap ← __build_tree_loop (length (min_heap self)) (min_heap self);
  Some (set_min_heap self heap).

(** [__build_codes]: the two tables are threaded through the recursion; the
    [node is None] base case is the [None] child. *)
Definition tables : Type := gmap char (list bool) * gmap (list bool) char.

Fixpoint __build_codes_node (node : Node) (bin_code : list bool) (t : tables)
    : tables :=
  let t :=
    match key node with
    | Some k => (<[k := bin_code]> t.1, <[bin_code := k]> t.2)
    | None => t
    end in
  let t :=
    match left node with
    | Some l => __build_codes_node l (bin_code ++ [false]) t
    | None => t
    end in
  match right node with
  | Some r => __build_codes_node r (bin_code ++ [true]) t
  | None => t
  end.

Definition __build_codes (self : HuffmanCoding) (node : option Node)
    (bin_code : list bool) : HuffmanCoding :=
  match node with
  | None => self
  | Some n =>
      let t := __build_codes_node n bin_code
                 (codes_hash_table self, reverse_codes_hash_table self) in
      mkHuffmanCoding (min_heap self) t.1 t.2
  end.

(** The first loop of [__encode_text], which appends the code of every
    character: [KeyError] when a character has no code. *)
Definition concat_codes (self : HuffmanCoding) (text : list char)
    : option (list bool) :=
  foldl (fun acc char =>
           encoded_text ← acc;
           code ← codes_hash_table self !! char;
           Some (encoded_text ++ code))
        (Some []) text.

(** [__encode_text] *)
Definition __encode_text (self : HuffmanCoding) (text : list char)
    : option (list bool) :=
  encoded_text ← concat_codes self text;
  let pad_amount := (8 - N.of_nat (length encoded_text) mod 8)%N in
  let encoded_text := encoded_text ++ replicate (N.to_nat pad_amount) false in
  let pad_info := format_08b pad_amount in
  Some (pad_info ++ encoded_text).

Definition __encoded_to_bin (encoded_text : list bool) : option (list N) :=
  mapM (fun i => int2 (py_slice encoded_text (Z.of_nat i) (Z.of_nat (i + 8))))
       (range8 (length encoded_text)).

(** The first half of [compress]: from the frequency dictionary to the two
    code tables ([__build_heap], [__build_tree], and [__build_codes] on the
    node popped from the heap). *)
Definition build_code_tables (self : HuffmanCoding) (freq_dict : list (char * nat))
    : option HuffmanCoding :=
  let self := __build_heap self freq_dict in
  self ← __build_tree self;
  '(root, heap) ← heappop (min_heap self);
  let self := set_min_heap self heap in
  Some (__build_codes self (Some root) []).

(** [compress], without the file operations: [text] is what was read. *)
Definition compress (self : HuffmanCoding) (text : list char)
    : option (list N * HuffmanCoding) :=
  let freq_dict := __make_freq_dict text in
  self ← build_code_tables self freq_dict;
  encoded_text ← __encode_text self text;
  bin_array ← __encoded_to_bin encoded_text;
  bin_bytes ← bytes bin_array;
  Some (bin_bytes, self).

(** [__remove_pad] *)
Definition __remove_pad (bit_string : list bool) : option (list bool) :=
  pad_info ← int2 (py_slice bit_string 0 8);
  Some (py_slice bit_string 8 (- Z.of_N pad_info)).

(** [__decode_text]: the loop state is [(decoded_text, curr_bits)]. *)
Definition decode_step (self : HuffmanCoding) (st : list char * list bool)
    (bit : bool) : list char * list bool :=
  let curr_bits := st.2 ++ [bit] in
  match reverse_codes_hash_table self !! curr_bits with
  | Some c => (st.1 ++ [c], [])
  | None => (st.1, curr_bits)
  end.

Definition decode_scan (self : HuffmanCoding) (compressed_text : list bool)
    : list char * list bool :=
  foldl (decode_step self) ([], []) compressed_text.

Definition __decode_text (self : HuffmanCoding) (compressed_text : list bool)
    : list char :=
  (decode_scan self compressed_text).1.

(** The [while byte] loop of [decompress]: one 8-character string per byte
    of the file. *)
Definition read_bits (file : list N) : list bool :=
  foldl (fun bit_string byte_value => bit_string ++ format_08b byte_value) [] file.

(** [decompress], without the file operations: [file] is the list of bytes
    read. *)
Definition decompress (self : HuffmanCoding) (file : list N)
    : option (list char) :=
  let bit_string := read_bits file in
  compressed_text ← __remove_pad bit_string;
  Some (__decode_text self compressed_text).

(** The script at the end of the module: one object compresses the text and
    then decompresses the bytes it has just written. *)
Definition main (text : list char) : option (list N * list char) :=
  '(compressed, h) ← compress new_HuffmanCoding text;
  decompressed ← decompress h compressed;
  Some (compressed, decompressed).

End Huffman.

Arguments Node : clear implicits.
Arguments HuffmanCoding char {_ _}.

(** * Specification

    The predicates and measures in which the properties of the module are
    stated. *)

(** Weighted length of a list of (weight, code) pairs. *)
Definition wsum (l : list (nat * list bool)) : nat :=
  sum_list ((fun wc => wc.1 * length wc.2) <$> l).

(** The cost of the greedy merge on a multiset of weights: the two smallest
    weights [a ≤ b] are replaced by [a + b], at cost [a + b]. *)
Inductive hcost : list nat → nat → Prop :=
  | hcost_one w : hcost [w] 0
  | hcost_step ws a b rest m :
      ws ≡ₚ a :: b :: rest → a ≤ b → Forall (fun x => b ≤ x) rest →
      hcost ((a + b) :: rest) m → hcost ws (a + b + m).

(** Neither code is a prefix of the other. *)
Definition incomparable (c d : list bool) : Prop :=
  ¬ c `prefix_of` d ∧ ¬ d `prefix_of` c.

(** A list of codes is prefix-free when the codes at two different positions
    are always incomparable. *)
Inductive PF : list (list bool) → Prop :=
  | PF_nil : PF []
  | PF_cons c cs : Forall (incomparable c) cs → PF cs → PF (c :: cs).

(** Total length of the codes of a list of (weight, code) pairs. *)
Definition total_len (l : list (nat * list bool)) : nat :=
  sum_list (length <$> l.*2).

(** The loop of [int(s, 2)], from the value [acc] of the digits already
    read. *)
Definition int2_acc (acc : N) (s : list bool) : N :=
  fold_left (fun acc b => (2 * acc + bit_value b)%N) s acc.

(** The pad amount [8 - len % 8]. *)
Definition pad_amount_of (encoded_text : list bool) : N :=
  (8 - N.of_nat (length encoded_text) mod 8)%N.

(** The characters of a string literal, for the examples. *)
Definition text_of (s : string) : list ascii := list_ascii_of_string s.

(** The frequency table of ["AABBBCCCC"]. *)
Definition AABBBCCCC_freq : list (ascii * nat) :=
  [("A"%char, 2); ("B"%char, 3); ("C"%char, 4)].

(** The object after [compress] on ["AABBBCCCC"] (and on ["ABBCCCABBCCC"]):
    C is ["0"], A is ["10"], B is ["11"]. *)
Definition ABC_tables : HuffmanCoding ascii :=
  mkHuffmanCoding []
    (<["C"%char := [false]]>
       (<["A"%char := [true; false]]> (<["B"%char := [true; true]]> ∅)))
    (<[[false] := "C"%char]>
       (<[[true; false] := "A"%char]> (<[[true; true] := "B"%char]> ∅))).

(** The object after [compress] on ["abababab"]: a is ["0"], b is ["1"]. *)
Definition ab_tables : HuffmanCoding ascii :=
  mkHuffmanCoding []
    (<["a"%char := [false]]> (<["b"%char := [true]]> ∅))
    (<[[false] := "a"%char]> (<[[true] := "b"%char]> ∅)).

Section Specification.
Context `{Countable char}.

(** The heap invariant of [heapq]: no element is smaller than its parent. *)
Definition heap_ok (heap : list (Node char)) : Prop :=
  ∀ i x p, 0 < i → heap !! i = Some x → heap !! ((i - 1) / 2) = Some p →
    freq p ≤ freq x.

(** The order of a heap with a hole at [pos]: the value stored at [pos] is
    ignored and the children of [pos] are compared with its parent. *)
Definition hole_ok (heap : list (Node char)) (pos : nat) : Prop :=
  (∀ i x p, 0 < i → i ≠ pos → (i - 1) / 2 ≠ pos →
     heap !! i = Some x → heap !! ((i - 1) / 2) = Some p → freq p ≤ freq x) ∧
  (∀ c x p, 0 < pos → 0 < c → (c - 1) / 2 = pos →
     heap !! c = Some x → heap !! ((pos - 1) / 2) = Some p → freq p ≤ freq x).

(** [item] is not larger than the children of position [pos]. *)
Definition above_children (heap : list (Node char)) (pos : nat)
    (item : Node char) : Prop :=
  ∀ c x, 0 < c → (c - 1) / 2 = pos → heap !! c = Some x → freq item ≤ freq x.

(** The shape of the nodes the module builds: a leaf [Node(key, freq)], or an
    internal node made by [__build_tree] from two such trees. *)
Inductive Huff : Node char → Prop :=
  | Huff_leaf k f : Huff (mkNode (Some k) f None None)
  | Huff_node l r :
      Huff l → Huff r → Huff (mkNode None (freq l + freq r) (Some l) (Some r)).

(** The same, as a check that runs down the tree: a node without children
    carries a symbol; an internal node has no symbol, two children, and the
    sum of their frequencies. *)
Fixpoint tree_invariant (node : Node char) : Prop :=
  match left node, right node with
  | None, None => is_Some (key node)
  | Some l, Some r =>
      key node = None ∧ freq node = freq l + freq r ∧
      tree_invariant l ∧ tree_invariant r
  | _, _ => False
  end.

(** The leaves below [node] with the path that [__build_codes] follows to
    each of them, starting from [bin_code]. *)
Fixpoint leaf_codes (node : Node char) (bin_code : list bool)
    : list (char * nat * list bool) :=
  match key node with Some k => [(k, freq node, bin_code)] | None => [] end ++
  match left node with Some l => leaf_codes l (bin_code ++ [false]) | None => [] end ++
  match right node with Some r => leaf_codes r (bin_code ++ [true]) | None => [] end.

(** The symbols of the leaves below [node], with their frequencies. *)
Definition leaves (node : Node char) : list (char * nat) :=
  fst <$> leaf_codes node [].

(** Weighted path length: the sum over the leaves of frequency times depth. *)
Definition cost (node : Node char) : nat :=
  wsum ((fun x => (x.1.2, x.2)) <$> leaf_codes node []).

(** The nodes that [__build_heap] pushes. *)
Definition leaf_nodes (freq_dict : list (char * nat)) : list (Node char) :=
  (fun kf => new_Node (Some kf.1) kf.2) <$> freq_dict.

(** One leaf written into the two tables. *)
Definition record_leaf (t : tables (char := char)) (x : char * nat * list bool)
    : tables (char := char) :=
  (<[x.1.1 := x.2]> t.1, <[x.2 := x.1.1]> t.2).

(** What [__build_codes] does from the empty tables. *)
Definition tables_of (root : Node char) : tables (char := char) :=
  foldl record_leaf (∅, ∅) (leaf_codes root []).

(** The code of a symbol, read in [__codes_hash_table]. *)
Definition code_of (self : HuffmanCoding char) (k : char) : list bool :=
  default [] (codes_hash_table self !! k).

(** The sum over the symbols of frequency times code length. *)
Definition code_cost (fd : list (char * nat)) (code : char → list bool) : nat :=
  sum_list ((fun kf => kf.2 * length (code kf.1)) <$> fd).

(** A code is prefix-free on an alphabet when the code of a symbol is never a
    prefix of the code of another symbol. *)
Definition prefix_free_on (keys : list char) (code : char → list bool) : Prop :=
  ∀ k1 k2, k1 ∈ keys → k2 ∈ keys → k1 ≠ k2 → ¬ code k1 `prefix_of` code k2.

(** Exchanging the codes of two symbols. *)
Definition swap_codes (code : char → list bool) (k1 k2 : char) (k : char)
    : list bool :=
  if decide (k = k1) then code k2 else if decide (k = k2) then code k1 else code k.

(** The tables for a one-symbol text: the only code is the empty string. *)
Definition single_tables (c : char) : HuffmanCoding char :=
  mkHuffmanCoding [] (<[c := []]> ∅) (<[[] := c]> ∅).

(** The number of occurrences of a character in a text. *)
Definition occurrences (c : char) (text : list char) : nat :=
  length (filter (fun x => x = c) text).

(** The dictionary [d] counts the characters of [text]: its keys are
    distinct, a pair [(k, n)] is in it exactly when [k] occurs [n > 0] times,
    and the counts add up to the length of the text. *)
Definition counts (d : list (char * nat)) (text : list char) : Prop :=
  NoDup d.*1 ∧
  (∀ k n, (k, n) ∈ d ↔ 0 < n ∧ n = occurrences k text) ∧
  sum_list d.*2 = length text.

(** The node reached from [node] along a path, ["0"] to the left and ["1"]
    to the right. *)
Fixpoint walk (node : Node char) (path : list bool) {struct path}
    : option (Node char) :=
  match path with
  | [] => Some node
  | b :: path =>
      match (if b : bool then right node else left node) with
      | Some child => walk child path
      | None => None
      end
  end.

End Specification.

(** * Proofs *)

(** ** The heap operations keep the elements and the heap order *)

#[local] Arguments Nat.div : simpl never.
#[local] Arguments Nat.modulo : simpl never.
#[local] Arguments Nat.mul : simpl never.

Lemma parent_lt (i : nat) : 0 < i → (i - 1) / 2 < i.
Proof.
  intros. pose proof (Nat.div_mod_eq (i - 1) 2).
  pose proof (Nat.mod_upper_bound (i - 1) 2). lia.
Qed.

Lemma parent_child (c p : nat) :
  0 < c ∧ (c - 1) / 2 = p ↔ c = 2 * p + 1 ∨ c = 2 * p + 2.
Proof.
  pose proof (Nat.div_mod_eq (c - 1) 2).
  pose proof (Nat.mod_upper_bound (c - 1) 2).
  split.
  - intros [? <-]. lia.
  - intros [-> | ->].
    + replace (2 * p + 1 - 1) with (p * 2) by lia.
      rewrite Nat.div_mul by lia. lia.
    + replace (2 * p + 2 - 1) with (1 + p * 2) by lia.
      rewrite Nat.div_add by lia. simpl. lia.
Qed.

Lemma insert_move_hole {A} (l : list A) (i j : nat) (x y : A) :
  l !! j = Some y → i < length l → i ≠ j →
  <[j := x]> (<[i := y]> l) ≡ₚ <[i := x]> l.
Proof.
  intros Hj Hi Hne.
  rewrite <- (list_insert_insert_eq l i y x).
  apply Permutation_insert_swap.
  - by apply list_lookup_insert_eq.
  - by rewrite list_lookup_insert_ne.
Qed.

Section heapq_facts.
Context {char : Type}.
Implicit Types (heap : list (Node char)) (x item : Node char).

Lemma Node_lt_spec x y : Node_lt x y = true ↔ freq x < freq y.
Proof. unfold Node_lt. apply Nat.ltb_lt. Qed.

Lemma Node_lt_false x y : Node_lt x y = false ↔ freq y ≤ freq x.
Proof. unfold Node_lt. rewrite Nat.ltb_ge. done. Qed.

Lemma hole_ok_insert heap pos item :
  hole_ok heap pos → hole_ok (<[pos := item]> heap) pos.
Proof.
  intros [R1 R2]. split.
  - intros i x p Hi Hne Hpne. rewrite !list_lookup_insert_ne by done. eauto.
  - intros c x p Hpos Hc Hpar.
    assert (c ≠ pos) by (pose proof (parent_lt c Hc); lia).
    assert ((pos - 1) / 2 ≠ pos) by (pose proof (parent_lt pos Hpos); lia).
    rewrite !list_lookup_insert_ne by done. eauto.
Qed.

Lemma hole_fill heap pos item :
  pos < length heap →
  hole_ok heap pos → above_children heap pos item →
  (0 < pos → ∀ p, heap !! ((pos - 1) / 2) = Some p → freq p ≤ freq item) →
  heap_ok (<[pos := item]> heap).
Proof.
  intros Hlen [R1 R2] Hch Hpar i x p Hi Hx Hp.
  destruct (decide (i = pos)) as [-> | Hne].
  - rewrite list_lookup_insert_eq in Hx by done. simplify_eq.
    rewrite list_lookup_insert_ne in Hp by (pose proof (parent_lt pos Hi); lia).
    eauto.
  - rewrite list_lookup_insert_ne in Hx by done.
    destruct (decide ((i - 1) / 2 = pos)) as [Hpi | Hpi].
    + rewrite Hpi, list_lookup_insert_eq in Hp by done. simplify_eq. eauto.
    + rewrite list_lookup_insert_ne in Hp by done. eauto.
Qed.

(** *** [_siftdown] *)

Lemma _siftdown_loop_perm fuel heap startpos pos item :
  pos < length heap →
  let r := _siftdown_loop fuel heap startpos pos item in
  length r.1 = length heap ∧ r.2 < length heap ∧
  <[r.2 := item]> r.1 ≡ₚ <[pos := item]> heap.
Proof.
  revert heap pos. induction fuel as [| fuel IH]; intros heap pos Hlen; simpl.
  { done. }
  case_bool_decide as Hpos; [| done].
  pose proof (parent_lt pos ltac:(lia)) as Hpar.
  destruct (heap !! ((pos - 1) / 2)) as [parent |] eqn:Hp; simpl.
  2:{ done. }
  destruct (Node_lt item parent); simpl; [| done].
  destruct (IH (<[pos := parent]> heap) ((pos - 1) / 2)) as (IH1 & IH2 & IH3).
  { rewrite length_insert. lia. }
  rewrite length_insert in IH1, IH2.
  split_and!; [done | done |].
  rewrite IH3. apply insert_move_hole; [done | done | lia].
Qed.

Lemma _siftdown_loop_ok fuel heap pos item :
  pos ≤ fuel → pos < length heap →
  hole_ok heap pos → above_children heap pos item →
  let r := _siftdown_loop fuel heap 0 pos item in
  heap_ok (<[r.2 := item]> r.1).
Proof.
  revert heap pos. induction fuel as [| fuel IH];
    intros heap pos Hfuel Hlen Hhole Hch; simpl.
  { apply hole_fill; [done | done | done | lia]. }
  case_bool_decide as Hpos; simpl; [| apply hole_fill; [done | done | done | lia]].
  pose proof (parent_lt pos Hpos) as Hpar.
  destruct (heap !! ((pos - 1) / 2)) as [parent |] eqn:Hp; simpl;
    [| apply hole_fill; [done | done | done | congruence]].
  destruct (Node_lt item parent) eqn:Hlt; simpl.
  2:{ apply hole_fill; [done | done | done |].
      intros _ p Hp'. simplify_eq. by apply Node_lt_false. }
  apply Node_lt_spec in Hlt.
  destruct Hhole as [R1 R2].
  apply IH.
  - lia.
  - rewrite length_insert. lia.
  - split.
    + intros i x p Hi Hne Hpne Hx Hpi.
      destruct (decide (i = pos)) as [-> | Hipos]; [done |].
      rewrite list_lookup_insert_ne in Hx by done.
      destruct (decide ((i - 1) / 2 = pos)) as [Hip | Hip].
      * rewrite Hip, list_lookup_insert_eq in Hpi by done. simplify_eq.
        eapply R2; eauto.
      * rewrite list_lookup_insert_ne in Hpi by done. eauto.
    + intros c x p Hq Hc Hcq Hx Hpq.
      rewrite list_lookup_insert_ne in Hpq
        by (pose proof (parent_lt _ Hq); lia).
      assert (freq p ≤ freq parent) as Hpp.
      { eapply (R1 ((pos - 1) / 2)); eauto; pose proof (parent_lt _ Hq); lia. }
      destruct (decide (c = pos)) as [-> | Hcpos].
      * rewrite list_lookup_insert_eq in Hx by done. by simplify_eq.
      * rewrite list_lookup_insert_ne in Hx by done.
        etrans; [exact Hpp |].
        apply (R1 c x parent); [done | done | lia | done | by rewrite Hcq].
  - intros c x Hc Hcq Hx.
    destruct (decide (c = pos)) as [-> | Hcpos].
    + rewrite list_lookup_insert_eq in Hx by done. simplify_eq. lia.
    + rewrite list_lookup_insert_ne in Hx by done.
      assert (freq parent ≤ freq x); [| lia].
      apply (R1 c x parent); [done | done | lia | done | by rewrite Hcq].
Qed.

Lemma _siftdown_perm' heap startpos pos :
  pos < length heap → _siftdown heap startpos pos ≡ₚ heap.
Proof.
  intros Hlen. unfold _siftdown.
  destruct (heap !! pos) as [item |] eqn:Hitem; [| done].
  pose proof (_siftdown_loop_perm pos heap startpos pos item Hlen) as (_ & _ & Hp).
  destruct (_siftdown_loop pos heap startpos pos item) as [heap' pos'].
  simpl in Hp. rewrite Hp. by rewrite list_insert_id.
Qed.

Lemma _siftdown_ok heap pos item :
  heap !! pos = Some item →
  hole_ok heap pos → above_children heap pos item →
  heap_ok (_siftdown heap 0 pos).
Proof.
  intros Hitem Hhole Hch. unfold _siftdown. rewrite Hitem.
  pose proof (lookup_lt_Some _ _ _ Hitem) as Hlen.
  pose proof (_siftdown_loop_ok pos heap pos item (le_n _) Hlen Hhole Hch) as Hok.
  by destruct (_siftdown_loop pos heap 0 pos item) as [heap' pos'].
Qed.

(** *** [_siftup] *)

Lemma chosen_child heap endpos pos :
  2 * pos + 1 < endpos →
  let c := if right_is_smaller heap endpos (2 * pos + 1)
           then 2 * pos + 1 + 1 else 2 * pos + 1 in
  pos < c < endpos ∧ (c = 2 * pos + 1 ∨ c = 2 * pos + 2).
Proof.
  intros Hlt. unfold right_is_smaller.
  destruct (bool_decide _) eqn:Hb; simpl.
  - apply bool_decide_eq_true in Hb.
    destruct (match heap !! (2 * pos + 1) with Some _ => _ | None => _ end); lia.
  - lia.
Qed.

Lemma _siftup_loop_perm fuel heap endpos pos item :
  endpos = length heap → pos < length heap →
  let r := _siftup_loop fuel heap endpos pos in
  length r.1 = length heap ∧ r.2 < length heap ∧
  <[r.2 := item]> r.1 ≡ₚ <[pos := item]> heap.
Proof.
  revert heap endpos pos.
  induction fuel as [| fuel IH]; intros heap endpos pos Hend Hlen; simpl.
  { done. }
  case_bool_decide as Hchild; simpl; [| done].
  destruct (chosen_child heap endpos pos Hchild) as [Hc _].
  set (c := if right_is_smaller heap endpos (2 * pos + 1)
            then 2 * pos + 1 + 1 else 2 * pos + 1) in *.
  destruct (heap !! c) as [child |] eqn:Hchildv; simpl; [| done].
  destruct (IH (<[pos := child]> heap) endpos c) as (IH1 & IH2 & IH3).
  { by rewrite length_insert. }
  { rewrite length_insert. lia. }
  rewrite length_insert in IH1, IH2.
  split_and!; [done | done |].
  rewrite IH3. apply insert_move_hole; [done | done | lia].
Qed.

Lemma _siftup_loop_ok fuel heap endpos pos :
  endpos = length heap → endpos - pos ≤ fuel → pos < length heap →
  hole_ok heap pos →
  let r := _siftup_loop fuel heap endpos pos in
  hole_ok r.1 r.2 ∧ endpos ≤ 2 * r.2 + 1.
Proof.
  revert heap endpos pos. induction fuel as [| fuel IH];
    intros heap endpos pos Hend Hfuel Hlen Hhole; simpl.
  { split; [done | lia]. }
  case_bool_decide as Hchild; simpl; [| split; [done | lia]].
  destruct (chosen_child heap endpos pos Hchild) as [Hc Hc'].
  set (c := if right_is_smaller heap endpos (2 * pos + 1)
            then 2 * pos + 1 + 1 else 2 * pos + 1) in *.
  destruct (heap !! c) as [child |] eqn:Hchildv; simpl.
  2:{ apply lookup_ge_None in Hchildv. lia. }
  assert (∀ s x, s ≠ c → 0 < s → (s - 1) / 2 = pos → heap !! s = Some x →
            freq child ≤ freq x) as Hsmall.
  { intros s x Hsc Hs Hsp Hx.
    pose proof (proj1 (parent_child s pos) (conj Hs Hsp)) as Hs'.
    pose proof (lookup_lt_Some _ _ _ Hx) as Hslen.
    subst c. unfold right_is_smaller in *.
    destruct (heap !! (2 * pos + 1)) as [l |] eqn:Hl;
      [| apply lookup_ge_None in Hl; lia].
    case_bool_decide as Hr; simpl in *.
    - destruct (heap !! (2 * pos + 1 + 1)) as [r |] eqn:Hrv;
        [| apply lookup_ge_None in Hrv; lia].
      destruct (Node_lt l r) eqn:Hlr; simpl in *.
      + apply Node_lt_spec in Hlr.
        assert (s = 2 * pos + 1 + 1) as -> by lia.
        assert (x = r) as -> by congruence.
        assert (child = l) as -> by congruence. lia.
      + apply Node_lt_false in Hlr.
        assert (s = 2 * pos + 1) as -> by lia.
        assert (x = l) as -> by congruence.
        assert (child = r) as -> by congruence. done.
    - lia. }
  clearbody c.
  destruct Hhole as [R1 R2].
  assert ((c - 1) / 2 = pos) as Hcp by (apply parent_child; lia).
  apply IH.
  - by rewrite length_insert.
  - lia.
  - rewrite length_insert. lia.
  - split.
    + intros i x p Hi Hne Hpne Hx Hpi.
      destruct (decide (i = pos)) as [-> | Hipos].
      * rewrite list_lookup_insert_eq in Hx by done.
        assert (x = child) as -> by congruence.
        rewrite list_lookup_insert_ne in Hpi
          by (pose proof (parent_lt _ Hi); lia).
        apply (R2 c child p); [done | lia | done | done | done].
      * rewrite list_lookup_insert_ne in Hx by done.
        destruct (decide ((i - 1) / 2 = pos)) as [Hip | Hip].
        -- rewrite Hip, list_lookup_insert_eq in Hpi by done.
           assert (p = child) as -> by congruence.
           by apply (Hsmall i).
        -- rewrite list_lookup_insert_ne in Hpi by done. eauto.
    + intros d x p _ Hd Hdc Hx Hpc.
      rewrite Hcp, list_lookup_insert_eq in Hpc by done.
      assert (p = child) as -> by congruence.
      pose proof (proj1 (parent_child d c) (conj Hd Hdc)) as Hd'.
      rewrite list_lookup_insert_ne in Hx by lia.
      apply (R1 d x child); [done | lia | lia | done | by rewrite Hdc].
Qed.

Lemma _siftup_perm heap pos : _siftup heap pos ≡ₚ heap.
Proof.
  unfold _siftup. destruct (heap !! pos) as [item |] eqn:Hitem; [| done].
  pose proof (lookup_lt_Some _ _ _ Hitem) as Hlen.
  pose proof (_siftup_loop_perm (length heap) heap (length heap) pos item
                eq_refl Hlen) as (Hl & Hpos' & Hp).
  destruct (_siftup_loop (length heap) heap (length heap) pos) as [heap' pos'].
  simpl in *.
  rewrite _siftdown_perm'.
  - rewrite Hp. by rewrite list_insert_id.
  - rewrite length_insert. lia.
Qed.

Lemma _siftup_ok heap :
  heap ≠ [] → hole_ok heap 0 → heap_ok (_siftup heap 0).
Proof.
  intros Hne Hhole. unfold _siftup.
  destruct heap as [| item heap0]; [done |]. set (heap := item :: heap0) in *.
  change (heap !! 0) with (Some item).
  assert (0 < length heap) as Hlen by (simpl; lia).
  pose proof (_siftup_loop_perm (length heap) heap (length heap) 0 item
                eq_refl Hlen) as (Hl & Hpos' & _).
  pose proof (_siftup_loop_ok (length heap) heap (length heap) 0
                eq_refl ltac:(lia) Hlen Hhole) as [Hh Hleaf].
  destruct (_siftup_loop (length heap) heap (length heap) 0) as [heap' pos'].
  simpl in *.
  apply (_siftdown_ok _ _ item).
  - apply list_lookup_insert_eq. lia.
  - by apply hole_ok_insert.
  - intros c x Hc Hcp Hx.
    pose proof (proj1 (parent_child c pos') (conj Hc Hcp)).
    apply lookup_lt_Some in Hx. rewrite length_insert in Hx. lia.
Qed.

(** *** [heappush] and [heappop] *)

Lemma heappush_perm heap item : heappush heap item ≡ₚ item :: heap.
Proof.
  unfold heappush. rewrite _siftdown_perm'.
  - by rewrite Permutation_app_comm.
  - rewrite length_app. simpl. lia.
Qed.

Lemma heappush_ok heap item : heap_ok heap → heap_ok (heappush heap item).
Proof.
  intros Hok. unfold heappush. apply (_siftdown_ok _ _ item).
  - by rewrite lookup_app_r, Nat.sub_diag.
  - split.
    + intros i x p Hi Hne Hpne Hx Hp.
      pose proof (lookup_lt_Some _ _ _ Hx) as Hlt.
      rewrite length_app in Hlt. simpl in Hlt.
      pose proof (parent_lt i Hi).
      rewrite lookup_app_l in Hx, Hp by lia. eauto.
    + intros c x p _ Hc Hcp Hx _.
      pose proof (proj1 (parent_child c _) (conj Hc Hcp)).
      apply lookup_lt_Some in Hx. rewrite length_app in Hx. simpl in Hx. lia.
  - intros c x Hc Hcp Hx.
    pose proof (proj1 (parent_child c _) (conj Hc Hcp)).
    apply lookup_lt_Some in Hx. rewrite length_app in Hx. simpl in Hx. lia.
Qed.

Lemma heap_ok_root_min heap root :
  heap_ok heap → heap !! 0 = Some root → ∀ y, y ∈ heap → freq root ≤ freq y.
Proof.
  intros Hok Hroot y Hy. apply list_elem_of_lookup in Hy as [i Hi].
  revert y Hi. induction (lt_wf i) as [i _ IH]. intros y Hi.
  destruct (decide (i = 0)) as [-> | Hne].
  { assert (y = root) as -> by congruence. done. }
  assert (0 < i) as Hpos by lia.
  pose proof (parent_lt i Hpos) as Hpar.
  destruct (heap !! ((i - 1) / 2)) as [p |] eqn:Hp.
  - etrans; [apply (IH _ Hpar p Hp) |]. by apply (Hok i).
  - apply lookup_ge_None in Hp. apply lookup_lt_Some in Hi. lia.
Qed.

Lemma heap_ok_snoc heap item : heap_ok (heap ++ [item]) → heap_ok heap.
Proof.
  intros Hok i x p Hi Hx Hp. apply (Hok i); [done | |].
  - by apply lookup_app_l_Some.
  - by apply lookup_app_l_Some.
Qed.

Lemma heappop_is_Some heap : heap ≠ [] → is_Some (heappop heap).
Proof.
  intros Hne. unfold heappop.
  destruct (last heap) as [lastelt |] eqn:Hlast.
  - simpl. destruct (removelast heap); eauto.
  - apply last_None in Hlast. done.
Qed.

Lemma heappop_spec heap item heap' :
  heappop heap = Some (item, heap') →
  heap ≡ₚ item :: heap' ∧
  (heap_ok heap → heap_ok heap' ∧ ∀ y, y ∈ heap' → freq item ≤ freq y).
Proof.
  unfold heappop. intros Hpop.
  destruct (last heap) as [lastelt |] eqn:Hlast; [| done]. simpl in Hpop.
  apply last_Some in Hlast as [init ->].
  rewrite removelast_last in Hpop.
  destruct init as [| returnitem init].
  { injection Hpop as <- <-. split; [done |].
    intros _. split; [| by intros y Hy%elem_of_nil].
    intros i x p _ Hx. by rewrite lookup_nil in Hx. }
  injection Hpop as <- <-.
  assert (returnitem :: init ++ [lastelt] ≡ₚ
          returnitem :: _siftup (<[0 := lastelt]> (returnitem :: init)) 0) as Hperm.
  { constructor. rewrite _siftup_perm. simpl. by rewrite Permutation_app_comm. }
  split; [exact Hperm |]. intros Hok.
  split.
  - apply _siftup_ok; [done |]. split; [| intros; lia].
    intros i x p Hi _ Hpne Hx Hp.
    assert ((i - 1) / 2 ≠ 0) as Hpne' by done.
    apply (heap_ok_snoc _ lastelt Hok i); [done | |].
    + by destruct i.
    + by destruct ((i - 1) / 2).
  - intros y Hy.
    apply (heap_ok_root_min _ returnitem Hok); [done |].
    rewrite Hperm. by right.
Qed.

End heapq_facts.

(** ** The tree built by [__build_tree] *)

Lemma sum_list_app (l1 l2 : list nat) :
  sum_list (l1 ++ l2) = sum_list l1 + sum_list l2.
Proof. induction l1 as [| x l1 IH]; simpl; lia. Qed.

Lemma sum_list_cons (x : nat) (l : list nat) : sum_list (x :: l) = x + sum_list l.
Proof. done. Qed.

#[global] Instance sum_list_perm : Proper ((≡ₚ) ==> (=)) sum_list.
Proof. induction 1; simpl; lia. Qed.

Section tree_facts.
Context `{Countable char}.
Implicit Types (node root : Node char) (heap : list (Node char)).

Lemma Huff_tree_invariant node : Huff node → tree_invariant node.
Proof. induction 1; simpl; eauto. Qed.

Lemma wsum_app (l1 l2 : list (nat * list bool)) : wsum (l1 ++ l2) = wsum l1 + wsum l2.
Proof. unfold wsum. by rewrite fmap_app, sum_list_app. Qed.

Lemma wsum_perm (l1 l2 : list (nat * list bool)) : l1 ≡ₚ l2 → wsum l1 = wsum l2.
Proof. unfold wsum. by intros ->. Qed.

Lemma leaf_codes_shift node pre :
  Huff node →
  leaf_codes node pre = (fun x => (x.1, pre ++ x.2)) <$> leaf_codes node [].
Proof.
  intros Hh. revert pre. induction Hh as [k f | l r Hl IHl Hr IHr]; intros pre; simpl.
  - by rewrite app_nil_r.
  - rewrite (IHl (pre ++ [false])), (IHr (pre ++ [true])).
    rewrite (IHl [false]), (IHr [true]).
    rewrite fmap_app, <- !list_fmap_compose.
    f_equal; apply list_fmap_ext; intros _ [[k f] p] _; simpl;
      by rewrite <- app_assoc.
Qed.

Lemma leaf_codes_node (l r : Node char) pre :
  leaf_codes (mkNode None (freq l + freq r) (Some l) (Some r)) pre =
  leaf_codes l (pre ++ [false]) ++ leaf_codes r (pre ++ [true]).
Proof. done. Qed.

Lemma Huff_freq node :
  Huff node → freq node = sum_list (snd <$> leaves node).
Proof.
  unfold leaves. induction 1 as [k f | l r Hl IHl Hr IHr]; simpl.
  - lia.
  - rewrite (leaf_codes_shift l [false]), (leaf_codes_shift r [true]) by done.
    rewrite !fmap_app, sum_list_app, <- !list_fmap_compose.
    rewrite IHl, IHr, <- !list_fmap_compose. done.
Qed.

Lemma wsum_deeper (b : bool) (L : list (char * nat * list bool)) :
  wsum ((fun x => (x.1.2, x.2)) <$> ((fun x => (x.1, [b] ++ x.2)) <$> L)) =
  wsum ((fun x => (x.1.2, x.2)) <$> L) + sum_list (snd <$> (fst <$> L)).
Proof.
  unfold wsum. induction L as [| [[k f] p] L IH]; [done |].
  rewrite !fmap_cons, !sum_list_cons, IH. simpl. lia.
Qed.

Lemma wsum_shift node b :
  Huff node →
  wsum ((fun x => (x.1.2, x.2)) <$> leaf_codes node [b]) = cost node + freq node.
Proof.
  intros Hh. rewrite (Huff_freq node Hh). unfold cost, leaves.
  rewrite (leaf_codes_shift node [b] Hh). apply wsum_deeper.
Qed.

Lemma cost_node (l r : Node char) :
  Huff l → Huff r →
  cost (mkNode None (freq l + freq r) (Some l) (Some r)) =
  cost l + cost r + (freq l + freq r).
Proof.
  intros Hl Hr. unfold cost at 1. simpl.
  rewrite fmap_app, wsum_app, !wsum_shift by done. lia.
Qed.

Lemma leaves_node (l r : Node char) :
  Huff l → Huff r →
  leaves (mkNode None (freq l + freq r) (Some l) (Some r)) = leaves l ++ leaves r.
Proof.
  intros Hl Hr. unfold leaves. simpl.
  rewrite (leaf_codes_shift l [false]), (leaf_codes_shift r [true]) by done.
  rewrite fmap_app, <- !list_fmap_compose. done.
Qed.

Lemma hcost_perm ws ws' m : ws ≡ₚ ws' → hcost ws m → hcost ws' m.
Proof.
  intros Hp Hc. destruct Hc as [w | ws a b rest m Hws Hab Hmin Hc].
  - apply Permutation_singleton_l in Hp as <-. constructor.
  - econstructor; [| done | done | done]. by rewrite <- Hp.
Qed.

(** *** [__build_heap] *)

Lemma __build_heap_spec (self : HuffmanCoding char) (freq_dict : list (char * nat)) :
  min_heap (__build_heap self freq_dict) ≡ₚ leaf_nodes freq_dict ++ min_heap self ∧
  (heap_ok (min_heap self) → heap_ok (min_heap (__build_heap self freq_dict))).
Proof.
  unfold __build_heap. simpl. generalize (min_heap self) as heap.
  induction freq_dict as [| kf fd IH]; intros heap; simpl; [done |].
  destruct (IH (heappush heap (new_Node (Some kf.1) kf.2))) as [IH1 IH2].
  split.
  - rewrite IH1, heappush_perm. by rewrite Permutation_middle.
  - intros Hok. by apply IH2, heappush_ok.
Qed.

(** *** [__build_tree] *)

Lemma __build_tree_loop_spec fuel heap :
  heap ≠ [] → length heap ≤ fuel → heap_ok heap → Forall Huff heap →
  ∃ root m,
    __build_tree_loop fuel heap = Some [root] ∧ Huff root ∧
    leaves root ≡ₚ concat (leaves <$> heap) ∧
    hcost (freq <$> heap) m ∧
    cost root = sum_list (cost <$> heap) + m.
Proof.
  revert heap. induction fuel as [| fuel IH]; intros heap Hne Hlen Hok Hhuff.
  { destruct heap; [done | simpl in Hlen; lia]. }
  simpl. case_bool_decide as Hlong.
  2:{ destruct heap as [| root [| ? ?]]; [done | | simpl in Hlong; lia].
      exists root, 0. simpl. rewrite app_nil_r.
      split_and!; [done | by inversion Hhuff | done | constructor | lia]. }
  destruct (heappop_is_Some heap Hne) as [[node_1 heap1] Hpop1].
  rewrite Hpop1. simpl.
  destruct (heappop_spec _ _ _ Hpop1) as [Hp1 Hmin1].
  destruct (Hmin1 Hok) as [Hok1 Hle1].
  assert (heap1 ≠ []) as Hne1.
  { intros ->. apply Permutation_length in Hp1. simpl in Hp1. lia. }
  destruct (heappop_is_Some heap1 Hne1) as [[node_2 heap2] Hpop2].
  rewrite Hpop2. simpl.
  destruct (heappop_spec _ _ _ Hpop2) as [Hp2 Hmin2].
  destruct (Hmin2 Hok1) as [Hok2 Hle2].
  set (new_node := mkNode None (freq node_1 + freq node_2) (Some node_1) (Some node_2)).
  assert (heap ≡ₚ node_1 :: node_2 :: heap2) as Hp by (by rewrite Hp1, Hp2).
  rewrite Hp in Hhuff.
  apply Forall_cons in Hhuff as [Hh1 Hhuff]. apply Forall_cons in Hhuff as [Hh2 Hhuff].
  assert (Huff new_node) as Hhn by (by constructor).
  pose proof (heappush_perm heap2 new_node) as Hp3.
  destruct (IH (heappush heap2 new_node)) as (root & m & Hrun & Hroot & Hleaves & Hcost & Hsum).
  - intros Heq. rewrite Heq in Hp3. by apply Permutation_nil_cons in Hp3.
  - apply Permutation_length in Hp, Hp3. simpl in *. lia.
  - by apply heappush_ok.
  - rewrite Hp3. by constructor.
  - exists root, (freq node_1 + freq node_2 + m).
    split_and!; [done | done | | |].
    + rewrite Hleaves, Hp3, Hp, !fmap_cons, !concat_cons. unfold new_node.
      rewrite leaves_node by done. by rewrite <- app_assoc.
    + apply (hcost_step _ (freq node_1) (freq node_2) (freq <$> heap2)).
      * by rewrite Hp.
      * apply Hle1. rewrite Hp2. by left.
      * apply Forall_fmap, Forall_forall. intros y Hy. apply Hle2, Hy.
      * apply (hcost_perm (freq <$> heappush heap2 new_node)); [| done].
        by rewrite Hp3.
    + rewrite Hsum, Hp3, Hp, !fmap_cons, !sum_list_cons. unfold new_node.
      rewrite cost_node by done. lia.
Qed.

End tree_facts.

(** ** No prefix-free code is cheaper than the greedy merge *)

Lemma incomparable_sym c d : incomparable c d → incomparable d c.
Proof. intros [? ?]. by split. Qed.

Lemma PF_perm_impl (l l' : list (list bool)) : l ≡ₚ l' → PF l → PF l'.
Proof.
  induction 1 as [| x l l' Hp IH | x y l | l l' l'' _ IH1 _ IH2]; intros Hpf.
  - done.
  - inversion_clear Hpf as [| ? ? Hx Hl]. constructor; [by rewrite <- Hp | auto].
  - inversion_clear Hpf as [| ? ? Hy Hxl].
    inversion_clear Hxl as [| ? ? Hx Hl].
    apply Forall_cons in Hy as [Hyx Hy].
    constructor; [| by constructor].
    constructor; [by apply incomparable_sym | done].
  - auto.
Qed.

#[global] Instance PF_perm : Proper ((≡ₚ) ==> iff) PF.
Proof. intros l l' Hp. split; apply PF_perm_impl; [done | by symmetry]. Qed.

Lemma exists_longest (l : list (nat * list bool)) :
  l ≠ [] →
  ∃ x l1, l ≡ₚ x :: l1 ∧ Forall (fun c => length c ≤ length x.2) l1.*2.
Proof.
  induction l as [| y l IH]; [done |]. intros _.
  destruct l as [| z l].
  { exists y, []. split; [done | constructor]. }
  destruct IH as (x & l1 & Hp & Hmax); [done |].
  destruct (decide (length y.2 ≤ length x.2)) as [Hle | Hgt].
  - exists x, (y :: l1). split.
    + rewrite Hp. apply perm_swap.
    + rewrite fmap_cons. by constructor.
  - exists y, (x :: l1). split.
    + by rewrite Hp.
    + rewrite fmap_cons. constructor; [lia |].
      eapply Forall_impl; [exact Hmax |]. simpl. intros c Hc. lia.
Qed.

Lemma bring_min_front w1 c1 (l0 : list (nat * list bool)) a rest :
  w1 :: l0.*1 ≡ₚ a :: rest →
  Forall (fun x => a ≤ x) rest →
  Forall (fun c => length c ≤ length c1) l0.*2 →
  ∃ l0', l0'.*2 = l0.*2 ∧ l0'.*1 ≡ₚ rest ∧
         wsum ((a, c1) :: l0') ≤ wsum ((w1, c1) :: l0).
Proof.
  intros Hp Hmin Hlen.
  destruct (decide (a = w1)) as [-> | Hne].
  { exists l0. split_and!; [done | | done]. by apply Permutation_cons_inv in Hp. }
  assert (a ∈ l0.*1) as Ha.
  { assert (a ∈ w1 :: l0.*1) as Hin by (rewrite Hp; by left).
    apply elem_of_cons in Hin as [? | ?]; done. }
  assert (a ≤ w1) as Haw.
  { assert (w1 ∈ a :: rest) as Hin by (rewrite <- Hp; by left).
    apply elem_of_cons in Hin as [? | Hin]; [lia |].
    by apply (proj1 (Forall_forall _ _) Hmin). }
  apply list_elem_of_fmap in Ha as ([a' c] & Hac & Hin). simpl in Hac. subst a'.
  apply list_elem_of_split in Hin as (l01 & l02 & ->).
  exists (l01 ++ (w1, c) :: l02). split_and!.
  - by rewrite !fmap_app, !fmap_cons.
  - rewrite fmap_app, fmap_cons in *. simpl in *.
    apply (Permutation_cons_inv (a := a)).
    rewrite <- Hp, <- !Permutation_middle. apply perm_swap.
  - rewrite fmap_app, fmap_cons, Forall_app, Forall_cons in Hlen.
    destruct Hlen as (_ & Hc & _). simpl in Hc.
    unfold wsum. rewrite !fmap_cons, !fmap_app, !fmap_cons, !sum_list_cons,
      !sum_list_app, !sum_list_cons. simpl. nia.
Qed.

Lemma PF_no_nil (c : list bool) (cs : list (list bool)) :
  PF (c :: cs) → cs ≠ [] → c ≠ [].
Proof.
  intros Hpf Hne ->. inversion_clear Hpf as [| ? ? Hc _].
  destruct cs as [| d cs]; [done |].
  apply Forall_cons in Hc as [[Hc _] _]. apply Hc, prefix_nil.
Qed.

(** Shortening the longest code by one bit when its sibling is unused. *)
Lemma PF_shorten p (bit : bool) (cs : list (list bool)) :
  PF ((p ++ [bit]) :: cs) →
  Forall (fun c => length c ≤ length (p ++ [bit])) cs →
  p ++ [negb bit] ∉ cs →
  PF (p :: cs).
Proof.
  intros Hpf Hlen Hsib. inversion_clear Hpf as [| ? ? Hc Hcs].
  constructor; [| done].
  apply Forall_forall. intros d Hd.
  pose proof (proj1 (Forall_forall _ _) Hc d Hd) as [Hcd Hdc].
  pose proof (proj1 (Forall_forall _ _) Hlen d Hd) as Hdl.
  rewrite length_app in Hdl. simpl in Hdl.
  split.
  - intros [k ->]. destruct k as [| b' k].
    + apply Hdc. rewrite app_nil_r. by apply prefix_app_r.
    + destruct k as [| b'' k]; [| rewrite length_app in Hdl; simpl in Hdl; lia].
      destruct (decide (b' = bit)) as [-> | Hb]; [by apply Hcd |].
      apply Hsib. by replace (negb bit) with b' by (by destruct b', bit).
  - intros Hdp. apply Hdc. by apply prefix_app_r.
Qed.

(** Merging two sibling codes into their common parent. *)
Lemma PF_merge p (bit : bool) (cs : list (list bool)) :
  PF ((p ++ [bit]) :: (p ++ [negb bit]) :: cs) → PF (p :: cs).
Proof.
  intros Hpf. inversion_clear Hpf as [| ? ? Hc Hcs].
  inversion_clear Hcs as [| ? ? Hs Hcs'].
  apply Forall_cons in Hc as [_ Hc].
  constructor; [| done].
  apply Forall_forall. intros d Hd.
  pose proof (proj1 (Forall_forall _ _) Hc d Hd) as [Hcd Hdc].
  pose proof (proj1 (Forall_forall _ _) Hs d Hd) as [Hsd Hds].
  split.
  - intros [k ->]. destruct k as [| b' k].
    + apply Hdc. rewrite app_nil_r. by apply prefix_app_r.
    + destruct (decide (b' = bit)) as [-> | Hb].
      * apply Hcd. exists k. by rewrite <- app_assoc.
      * apply Hsd. exists k. rewrite <- app_assoc. simpl.
        by replace (negb bit) with b' by (by destruct b', bit).
  - intros Hdp. apply Hdc. by apply prefix_app_r.
Qed.

Lemma merge_two_smallest (l : list (nat * list bool)) a b rest :
  l.*1 ≡ₚ a :: b :: rest → a ≤ b → Forall (fun x => b ≤ x) rest →
  PF l.*2 →
  ∃ l', l'.*1 ≡ₚ (a + b) :: rest ∧ PF l'.*2 ∧ wsum l' + (a + b) ≤ wsum l.
Proof.
  remember (total_len l) as n eqn:Hn. revert l Hn.
  induction (lt_wf n) as [n _ IH]. intros l Hn Hw Hab Hmin Hpf.
  destruct (exists_longest l) as ([wx cx] & l1 & Hl & Hmax).
  { intros ->. by apply Permutation_nil_cons in Hw. }
  simpl in Hmax.
  assert (l1 ≠ []) as Hl1.
  { intros ->. rewrite Hl in Hw. apply Permutation_length in Hw. simpl in Hw. lia. }
  assert (PF (cx :: l1.*2)) as Hpf1 by (by rewrite Hl in Hpf).
  assert (cx ≠ []) as Hcx.
  { apply (PF_no_nil _ _ Hpf1). by destruct l1. }
  destruct (exists_last Hcx) as (p & bit & ->).
  destruct (decide (p ++ [negb bit] ∈ l1.*2)) as [Hsib | Hsib].
  - (* the sibling is a code: merge the two *)
    apply list_elem_of_fmap in Hsib as ([wy s] & Hs & Hin). simpl in Hs. subst s.
    apply list_elem_of_split in Hin as (l11 & l12 & Hl1eq).
    set (l2 := l11 ++ l12).
    assert (l1 ≡ₚ (wy, p ++ [negb bit]) :: l2) as Hl1p.
    { rewrite Hl1eq. by rewrite <- Permutation_middle. }
    assert (l ≡ₚ (wx, p ++ [bit]) :: (wy, p ++ [negb bit]) :: l2) as Hl0.
    { by rewrite Hl, Hl1p. }
    rewrite Hl1p in Hmax. rewrite fmap_cons, Forall_cons in Hmax.
    destruct Hmax as [_ Hmax]. simpl in Hmax.
    destruct (bring_min_front wx (p ++ [bit]) ((wy, p ++ [negb bit]) :: l2)
                a (b :: rest)) as (l0' & Hcodes & Hws & Hsum1).
    { rewrite <- Hw, Hl0. by rewrite !fmap_cons. }
    { constructor; [done |]. eapply Forall_impl; [exact Hmin |]. simpl. lia. }
    { rewrite fmap_cons. constructor; [| done].
      simpl. rewrite !length_app. simpl. lia. }
    destruct l0' as [| [wy' s'] l2']; [done |].
    rewrite !fmap_cons in Hcodes. simpl in Hcodes. injection Hcodes as -> Hcodes.
    rewrite fmap_cons in Hws. simpl in Hws.
    destruct (bring_min_front wy' (p ++ [negb bit]) l2' b rest)
      as (l2'' & Hcodes' & Hws' & Hsum2).
    { done. }
    { done. }
    { rewrite Hcodes. eapply Forall_impl; [exact Hmax |]. simpl.
      intros c. rewrite !length_app. simpl. lia. }
    exists ((a + b, p) :: l2''). split_and!.
    + rewrite fmap_cons. simpl. by rewrite Hws'.
    + rewrite fmap_cons. simpl. rewrite Hcodes', Hcodes.
      apply (PF_merge p bit). rewrite Hl0 in Hpf. by rewrite !fmap_cons in Hpf.
    + rewrite (wsum_perm _ _ Hl0).
      etrans; [| exact Hsum1].
      unfold wsum in *. rewrite !fmap_cons, !sum_list_cons in *. simpl in *.
      rewrite !length_app in *. simpl in *. nia.
  - (* the sibling is unused: shorten the longest code *)
    set (l_new := (wx, p) :: l1).
    destruct (IH (total_len l_new)) with (l := l_new)
      as (l' & Hl'w & Hl'pf & Hl'sum).
    + subst n. unfold total_len. rewrite Hl. unfold l_new.
      rewrite !fmap_cons, !sum_list_cons. simpl. rewrite length_app. simpl. lia.
    + done.
    + unfold l_new. rewrite fmap_cons. simpl. by rewrite <- Hw, Hl.
    + done.
    + done.
    + unfold l_new. rewrite fmap_cons. simpl. by apply (PF_shorten p bit).
    + exists l'. split_and!; [done | done |].
      etrans; [exact Hl'sum |]. rewrite (wsum_perm _ _ Hl).
      unfold l_new, wsum. rewrite !fmap_cons, !sum_list_cons. simpl.
      rewrite length_app. simpl. nia.
Qed.

(** The cost of the greedy merge is a lower bound for every prefix-free
    assignment of codes to the weights. *)
Lemma hcost_lower_bound ws m :
  hcost ws m →
  ∀ l : list (nat * list bool), l.*1 ≡ₚ ws → PF l.*2 → m ≤ wsum l.
Proof.
  induction 1 as [w | ws a b rest m Hws Hab Hmin Hc IH]; intros l Hl Hpf.
  - lia.
  - destruct (merge_two_smallest l a b rest) as (l' & Hl' & Hpf' & Hsum);
      [by rewrite Hl | done | done | done |].
    specialize (IH l' Hl' Hpf'). lia.
Qed.

(** ** The code tables written by [__build_codes] *)

Lemma PF_app (A B : list (list bool)) :
  PF A → PF B → (∀ a b, a ∈ A → b ∈ B → incomparable a b) → PF (A ++ B).
Proof.
  intros HA HB Hcross. induction HA as [| c cs Hc Hcs IH]; [done |].
  simpl. constructor.
  - apply Forall_app. split; [done |].
    apply Forall_forall. intros b Hb. apply Hcross; [by left | done].
  - apply IH. intros a b Ha Hb. apply Hcross; [by right | done].
Qed.

Lemma PF_elem_of (cs : list (list bool)) i j c d :
  PF cs → i ≠ j → cs !! i = Some c → cs !! j = Some d → incomparable c d.
Proof.
  intros Hpf. revert i j. induction Hpf as [| e cs He Hcs IH]; intros i j Hne Hi Hj.
  { by rewrite lookup_nil in Hi. }
  destruct i as [| i], j as [| j]; simpl in *.
  - done.
  - injection Hi as ->. apply (proj1 (Forall_forall _ _) He).
    by apply list_elem_of_lookup_2 in Hj.
  - injection Hj as ->. apply incomparable_sym, (proj1 (Forall_forall _ _) He).
    by apply list_elem_of_lookup_2 in Hi.
  - apply (IH i j); [lia | done | done].
Qed.

Lemma PF_NoDup (cs : list (list bool)) : PF cs → NoDup cs.
Proof.
  induction 1 as [| c cs Hc Hcs IH]; constructor; [| done].
  intros Hin. by destruct (proj1 (Forall_forall _ _) Hc c Hin) as [[] _].
Qed.

Section code_tables.
Context `{Countable char}.
Implicit Types (node root : Node char) (t : tables (char := char)).

Lemma __build_codes_node_leaf_codes node pre t :
  Huff node →
  __build_codes_node node pre t = foldl record_leaf t (leaf_codes node pre).
Proof.
  intros Hh. revert pre t.
  induction Hh as [k f | l r Hl IHl Hr IHr]; intros pre t.
  - done.
  - rewrite leaf_codes_node, foldl_app, <- IHr, <- IHl. done.
Qed.

Lemma record_leaf_codes_other (L : list (char * nat * list bool)) t k :
  k ∉ L.*1.*1 → (foldl record_leaf t L).1 !! k = t.1 !! k.
Proof.
  revert t. induction L as [| x L IH]; intros t Hk; [done |].
  rewrite !fmap_cons, not_elem_of_cons in Hk. destruct Hk as [Hx Hk].
  simpl. rewrite IH by done. simpl. by rewrite lookup_insert_ne.
Qed.

Lemma record_leaf_reverse_other (L : list (char * nat * list bool)) t p :
  p ∉ L.*2 → (foldl record_leaf t L).2 !! p = t.2 !! p.
Proof.
  revert t. induction L as [| x L IH]; intros t Hp; [done |].
  rewrite !fmap_cons, not_elem_of_cons in Hp. destruct Hp as [Hx Hp].
  simpl. rewrite IH by done. simpl. by rewrite lookup_insert_ne.
Qed.

Lemma record_leaf_codes (L : list (char * nat * list bool)) t k f p :
  NoDup L.*1.*1 → (k, f, p) ∈ L → (foldl record_leaf t L).1 !! k = Some p.
Proof.
  revert t. induction L as [| x L IH]; intros t Hnd Hin.
  { by apply elem_of_nil in Hin. }
  rewrite !fmap_cons in Hnd. apply NoDup_cons in Hnd as [Hx Hnd].
  simpl. apply elem_of_cons in Hin as [<- | Hin].
  - rewrite record_leaf_codes_other by done. simpl. apply lookup_insert_eq.
  - by apply IH.
Qed.

Lemma record_leaf_reverse (L : list (char * nat * list bool)) t k f p :
  NoDup L.*2 → (k, f, p) ∈ L → (foldl record_leaf t L).2 !! p = Some k.
Proof.
  revert t. induction L as [| x L IH]; intros t Hnd Hin.
  { by apply elem_of_nil in Hin. }
  rewrite !fmap_cons in Hnd. apply NoDup_cons in Hnd as [Hx Hnd].
  simpl. apply elem_of_cons in Hin as [<- | Hin].
  - rewrite record_leaf_reverse_other by done. simpl. apply lookup_insert_eq.
  - by apply IH.
Qed.

(** Every path below a node extends the path of the node; the paths to two
    different leaves are incomparable. *)
Lemma leaf_codes_extend node pre x :
  Huff node → x ∈ leaf_codes node pre → pre `prefix_of` x.2.
Proof.
  intros Hh. rewrite (leaf_codes_shift node pre Hh).
  intros ([kf q] & -> & _)%list_elem_of_fmap. simpl. by apply prefix_app_r.
Qed.

Lemma leaf_codes_PF node pre : Huff node → PF (leaf_codes node pre).*2.
Proof.
  intros Hh. revert pre. induction Hh as [k f | l r Hl IHl Hr IHr]; intros pre.
  - simpl. constructor; constructor.
  - rewrite leaf_codes_node, fmap_app. apply PF_app; [apply IHl | apply IHr |].
    intros a b ([? ?] & -> & Ha)%list_elem_of_fmap ([? ?] & -> & Hb)%list_elem_of_fmap.
    apply (leaf_codes_extend l) in Ha; [| done].
    apply (leaf_codes_extend r) in Hb; [| done].
    simpl in *. destruct Ha as [ka ->], Hb as [kb ->].
    rewrite <- !app_assoc. simpl.
    split; intros Hpre%prefix_app_inv%prefix_cons_inv_1; done.
Qed.

(** *** The run of [build_code_tables] on a fresh object *)

Lemma heap_ok_nil : heap_ok (@nil (Node char)).
Proof. intros i x p _ Hx. by rewrite lookup_nil in Hx. Qed.

Lemma leaf_nodes_Huff (fd : list (char * nat)) : Forall Huff (leaf_nodes fd).
Proof. apply Forall_fmap, Forall_forall. intros [k f] _. constructor. Qed.

Lemma leaf_nodes_leaves (fd : list (char * nat)) :
  concat (leaves <$> leaf_nodes fd) = fd.
Proof.
  induction fd as [| [k f] fd IH]; [done |].
  unfold leaf_nodes in *. by rewrite !fmap_cons, concat_cons, IH.
Qed.

Lemma leaf_nodes_freq (fd : list (char * nat)) : freq <$> leaf_nodes fd = fd.*2.
Proof. unfold leaf_nodes. rewrite <- list_fmap_compose. done. Qed.

Lemma leaf_nodes_cost (fd : list (char * nat)) :
  sum_list (cost <$> leaf_nodes fd) = 0.
Proof.
  induction fd as [| [k f] fd IH]; [done |].
  unfold leaf_nodes in *. rewrite !fmap_cons, sum_list_cons, IH.
  unfold cost, wsum. simpl. lia.
Qed.

Lemma build_code_tables_run (fd : list (char * nat)) :
  fd ≠ [] →
  ∃ root,
    __build_tree (__build_heap new_HuffmanCoding fd)
      = Some (mkHuffmanCoding [root] ∅ ∅) ∧
    build_code_tables new_HuffmanCoding fd
      = Some (mkHuffmanCoding [] (tables_of root).1 (tables_of root).2) ∧
    Huff root ∧ leaves root ≡ₚ fd ∧ hcost fd.*2 (cost root).
Proof.
  intros Hne.
  destruct (__build_heap_spec new_HuffmanCoding fd) as [Hperm Hok].
  change (min_heap new_HuffmanCoding) with (@nil (Node char)) in Hperm, Hok.
  rewrite app_nil_r in Hperm.
  specialize (Hok heap_ok_nil).
  set (heap := min_heap (__build_heap new_HuffmanCoding fd)) in *.
  destruct (__build_tree_loop_spec (length heap) heap)
    as (root & m & Hrun & Hroot & Hleaves & Hcost & Hsum).
  - intros Heq. rewrite Heq in Hperm.
    apply Permutation_nil in Hperm. by destruct fd.
  - done.
  - done.
  - rewrite Hperm. apply leaf_nodes_Huff.
  - exists root.
    assert (__build_tree (__build_heap new_HuffmanCoding fd)
            = Some (mkHuffmanCoding [root] ∅ ∅)) as Htree.
    { unfold __build_tree. fold heap. by rewrite Hrun. }
    split_and!; [done | | done | |].
    + unfold build_code_tables. rewrite Htree. simpl.
      unfold __build_codes, set_min_heap, tables_of. simpl.
      by rewrite __build_codes_node_leaf_codes.
    + by rewrite Hleaves, Hperm, leaf_nodes_leaves.
    + rewrite Hperm, leaf_nodes_cost in Hsum. simpl in Hsum. rewrite Hsum.
      apply (hcost_perm (freq <$> heap)); [| done].
      by rewrite Hperm, leaf_nodes_freq.
Qed.

Lemma tables_of_lookup root :
  Huff root → NoDup (leaves root).*1 →
  (∀ k f p, (k, f, p) ∈ leaf_codes root [] →
     (tables_of root).1 !! k = Some p ∧ (tables_of root).2 !! p = Some k) ∧
  (∀ k, k ∉ (leaves root).*1 → (tables_of root).1 !! k = None) ∧
  (∀ p, p ∉ (leaf_codes root []).*2 → (tables_of root).2 !! p = None).
Proof.
  intros Hh Hnd. unfold tables_of, leaves in *. split_and!.
  - intros k f p Hin. split.
    + by apply (record_leaf_codes _ _ k f p).
    + apply (record_leaf_reverse _ _ k f p); [| done].
      by apply PF_NoDup, leaf_codes_PF.
  - intros k Hk. by rewrite record_leaf_codes_other.
  - intros p Hp. by rewrite record_leaf_reverse_other.
Qed.

End code_tables.

(** ** The code table of a frequency table *)

Section code_table_facts.
Context `{Countable char}.
Implicit Types (fd : list (char * nat)) (self : HuffmanCoding char).

Lemma build_code_tables_spec fd :
  fd ≠ [] → NoDup fd.*1 →
  ∃ root self,
    build_code_tables new_HuffmanCoding fd = Some self ∧
    Huff root ∧ leaves root ≡ₚ fd ∧ hcost fd.*2 (cost root) ∧
    (∀ k f p, (k, f, p) ∈ leaf_codes root [] →
       codes_hash_table self !! k = Some p ∧
       reverse_codes_hash_table self !! p = Some k) ∧
    (∀ k, k ∉ fd.*1 → codes_hash_table self !! k = None) ∧
    (∀ p, p ∉ (leaf_codes root []).*2 →
       reverse_codes_hash_table self !! p = None).
Proof.
  intros Hne Hnd.
  destruct (build_code_tables_run fd Hne) as (root & _ & Hrun & Hh & Hl & Hc).
  assert (NoDup (leaves root).*1) as Hnd' by (by rewrite Hl).
  destruct (tables_of_lookup root Hh Hnd') as (H1 & H2 & H3).
  eexists root, _. split; [exact Hrun |]. simpl.
  split_and!; [done | done | done | done | | done].
  intros k Hk. apply H2. by rewrite Hl.
Qed.

Lemma leaf_codes_of_key (root : Node char) (k : char) :
  k ∈ (leaves root).*1 → ∃ f p, (k, f, p) ∈ leaf_codes root [].
Proof.
  unfold leaves. intros ([k' f] & -> & ([[k'' f'] p] & Heq & Hin)%list_elem_of_fmap)%list_elem_of_fmap.
  simpl in *. injection Heq as -> ->. eauto.
Qed.

Lemma leaf_codes_incomparable (root : Node char) k1 f1 p1 k2 f2 p2 :
  Huff root → k1 ≠ k2 →
  (k1, f1, p1) ∈ leaf_codes root [] → (k2, f2, p2) ∈ leaf_codes root [] →
  incomparable p1 p2.
Proof.
  intros Hh Hne [i Hi]%list_elem_of_lookup [j Hj]%list_elem_of_lookup.
  apply (PF_elem_of _ i j _ _ (leaf_codes_PF root [] Hh)).
  - intros ->. congruence.
  - by rewrite list_lookup_fmap, Hi.
  - by rewrite list_lookup_fmap, Hj.
Qed.

(** The table has a code for exactly the symbols of the frequency table, and
    these codes are prefix-free. *)
Lemma build_code_tables_prefix_free fd :
  fd ≠ [] → NoDup fd.*1 →
  ∃ root self,
    build_code_tables new_HuffmanCoding fd = Some self ∧
    Huff root ∧ leaves root ≡ₚ fd ∧ hcost fd.*2 (cost root) ∧
    (∀ k f p, (k, f, p) ∈ leaf_codes root [] → code_of self k = p) ∧
    (∀ k, k ∈ fd.*1 ↔ is_Some (codes_hash_table self !! k)) ∧
    prefix_free_on fd.*1 (code_of self).
Proof.
  intros Hne Hnd.
  destruct (build_code_tables_spec fd Hne Hnd)
    as (root & self & Hrun & Hh & Hl & Hc & Hin & Hout & _).
  exists root, self. split_and!; [done | done | done | done | | |].
  - intros k f p Hkp. unfold code_of. by rewrite (proj1 (Hin k f p Hkp)).
  - intros k. split.
    + rewrite <- Hl. intros (f & p & Hkp)%leaf_codes_of_key.
      rewrite (proj1 (Hin k f p Hkp)). eauto.
    + intros [c Hc']. destruct (decide (k ∈ fd.*1)) as [| Hk]; [done |].
      rewrite (Hout k Hk) in Hc'. done.
  - intros k1 k2 Hk1 Hk2 Hne12.
    rewrite <- Hl in Hk1, Hk2.
    apply leaf_codes_of_key in Hk1 as (f1 & p1 & Hk1).
    apply leaf_codes_of_key in Hk2 as (f2 & p2 & Hk2).
    unfold code_of.
    rewrite (proj1 (Hin _ _ _ Hk1)), (proj1 (Hin _ _ _ Hk2)). simpl.
    by destruct (leaf_codes_incomparable root k1 f1 p1 k2 f2 p2).
Qed.

(** *** Cost of the table against any other prefix-free code *)

Lemma prefix_free_on_PF (keys : list char) (code : char → list bool) :
  NoDup keys → prefix_free_on keys code → PF (code <$> keys).
Proof.
  intros Hnd Hpf. induction Hnd as [| k keys Hk Hnd IH]; [constructor |].
  rewrite fmap_cons. constructor.
  - apply Forall_fmap, Forall_forall. intros k' Hk'.
    assert (k ≠ k') by (intros ->; done).
    split; apply Hpf; try done; (by left) || (by right).
  - apply IH. intros k1 k2 Hk1 Hk2. apply Hpf; by right.
Qed.

Lemma code_cost_perm fd fd' code :
  fd ≡ₚ fd' → code_cost fd code = code_cost fd' code.
Proof. unfold code_cost. by intros ->. Qed.

Lemma code_cost_ext fd (code code' : char → list bool) :
  (∀ k, k ∈ fd.*1 → length (code k) = length (code' k)) →
  code_cost fd code = code_cost fd code'.
Proof.
  intros Hext. unfold code_cost. f_equal. apply list_fmap_ext.
  intros i [k f] Hi. simpl. rewrite Hext; [done |].
  apply list_elem_of_fmap. exists (k, f). split; [done |].
  by apply list_elem_of_lookup_2 in Hi.
Qed.

Lemma code_cost_leaves (root : Node char) (code : char → list bool) :
  (∀ k f p, (k, f, p) ∈ leaf_codes root [] → code k = p) →
  code_cost (leaves root) code = cost root.
Proof.
  intros Hcode. unfold code_cost, cost, wsum, leaves.
  rewrite <- !list_fmap_compose. f_equal. apply list_fmap_ext.
  intros i [[k f] p] Hi. simpl. rewrite (Hcode k f p); [done |].
  by apply list_elem_of_lookup_2 in Hi.
Qed.

Lemma code_cost_lower_bound fd m (code : char → list bool) :
  hcost fd.*2 m → NoDup fd.*1 → prefix_free_on fd.*1 code →
  m ≤ code_cost fd code.
Proof.
  intros Hc Hnd Hpf.
  set (l := (fun kf : char * nat => (kf.2, code kf.1)) <$> fd).
  assert (wsum l = code_cost fd code) as <-.
  { unfold wsum, code_cost, l. by rewrite <- list_fmap_compose. }
  assert (l.*1 = fd.*2) as Hl1 by (unfold l; by rewrite <- list_fmap_compose).
  assert (l.*2 = code <$> fd.*1) as Hl2
    by (unfold l; by rewrite <- !list_fmap_compose).
  apply (hcost_lower_bound _ _ Hc).
  - by rewrite Hl1.
  - rewrite Hl2. by apply prefix_free_on_PF.
Qed.

Lemma swap_codes_prefix_free (keys : list char) (code : char → list bool)
    (k1 k2 : char) :
  k1 ∈ keys → k2 ∈ keys →
  prefix_free_on keys code → prefix_free_on keys (swap_codes code k1 k2).
Proof.
  intros Hk1 Hk2 Hpf a b Ha Hb Hab. unfold swap_codes.
  repeat case_decide; subst; apply Hpf; done.
Qed.

Lemma code_cost_swap fd (code : char → list bool) (k1 : char) f1 (k2 : char) f2 :
  NoDup fd.*1 → (k1, f1) ∈ fd → (k2, f2) ∈ fd → k1 ≠ k2 →
  code_cost fd code + f1 * length (code k2) + f2 * length (code k1) =
  code_cost fd (swap_codes code k1 k2)
    + f1 * length (code k1) + f2 * length (code k2).
Proof.
  intros Hnd Hin1 Hin2 Hne.
  apply elem_of_Permutation in Hin1 as [fd1 Hp1].
  rewrite Hp1 in Hin2. apply elem_of_cons in Hin2 as [? | Hin2]; [congruence |].
  apply elem_of_Permutation in Hin2 as [fd0 Hp2].
  assert (fd ≡ₚ (k1, f1) :: (k2, f2) :: fd0) as Hp by (by rewrite Hp1, Hp2).
  rewrite Hp in Hnd. rewrite !fmap_cons in Hnd. simpl in Hnd.
  apply NoDup_cons in Hnd as [Hk1 Hnd]. apply NoDup_cons in Hnd as [Hk2 Hnd].
  apply not_elem_of_cons in Hk1 as [_ Hk1].
  rewrite !(code_cost_perm _ _ _ Hp).
  assert (code_cost fd0 (swap_codes code k1 k2) = code_cost fd0 code) as Hrest.
  { apply code_cost_ext. intros k Hk. unfold swap_codes.
    rewrite !decide_False; [done | |]; intros ->; done. }
  unfold code_cost in *. rewrite !fmap_cons, !sum_list_cons, Hrest. simpl.
  unfold swap_codes.
  destruct (decide (k1 = k1)); [| done].
  destruct (decide (k2 = k1)); [by subst |].
  destruct (decide (k2 = k2)); [| done]. lia.
Qed.

End code_table_facts.

(** ** Bits and bytes *)

#[local] Arguments N.mul : simpl never.
#[local] Arguments N.add : simpl never.

Lemma py_slice_0_8 {A} (l : list A) : py_slice l 0 8 = take 8 l.
Proof.
  unfold py_slice, py_index. simpl.
  rewrite Nat.min_0_r, Nat.sub_0_r, drop_0.
  destruct (decide (length l ≤ 8)).
  - rewrite Nat.min_l by lia. rewrite !take_ge by lia. done.
  - by rewrite Nat.min_r by lia.
Qed.

Lemma py_slice_chunk {A} (l : list A) (i : nat) :
  py_slice l (Z.of_nat i) (Z.of_nat (i + 8)) = take 8 (drop i l).
Proof.
  unfold py_slice, py_index.
  destruct (Z.ltb_spec (Z.of_nat i) 0); [lia |].
  destruct (Z.ltb_spec (Z.of_nat (i + 8)) 0); [lia |].
  rewrite !Nat2Z.id.
  destruct (decide (length l ≤ i)).
  - rewrite !drop_ge by lia. by rewrite !take_nil.
  - rewrite (Nat.min_r _ i) by lia.
    destruct (decide (length l ≤ i + 8)).
    + rewrite Nat.min_l by lia.
      rewrite !take_ge; [done | |]; rewrite length_drop; lia.
    + rewrite Nat.min_r by lia. f_equal. lia.
Qed.

Lemma py_slice_8_neg {A} (l : list A) (p : N) :
  (0 < p)%N →
  py_slice l 8 (- Z.of_N p) = take (length l - N.to_nat p - 8) (drop 8 l).
Proof.
  intros Hp. unfold py_slice, py_index.
  destruct (Z.ltb_spec (- Z.of_N p) 0); [| lia]. simpl.
  destruct (decide (length l ≤ 8)).
  - rewrite !drop_ge by lia. by rewrite !take_nil.
  - rewrite Nat.min_r by lia. f_equal. lia.
Qed.

(** [bit_string[8:-0]] is [bit_string[8:0]], the empty string. *)
Lemma py_slice_8_0 {A} (l : list A) : py_slice l 8 (- Z.of_N 0) = [].
Proof.
  unfold py_slice, py_index. simpl. by rewrite Nat.min_0_r.
Qed.

Lemma int2_cons (s : list bool) : s ≠ [] → int2 s = Some (int2_acc 0 s).
Proof. by destruct s. Qed.

Lemma int2_acc_app acc s1 s2 :
  int2_acc acc (s1 ++ s2) = int2_acc (int2_acc acc s1) s2.
Proof. unfold int2_acc. apply fold_left_app. Qed.

Lemma int2_acc_zeros n : int2_acc 0 (replicate n false) = 0%N.
Proof. induction n as [| n IH]; [done |]. simpl. exact IH. Qed.

Lemma int2_acc_pos_digits p : int2_acc 0 (pos_digits p) = Npos p.
Proof.
  induction p as [p IH | p IH |]; simpl; [| | done];
    rewrite int2_acc_app, IH; unfold int2_acc; simpl; lia.
Qed.

Lemma int2_format_08b (n : N) : int2 (format_08b n) = Some n.
Proof.
  unfold format_08b, rjust0.
  assert (bin_digits n ≠ []) as Hne.
  { intros Heq. apply (f_equal length) in Heq.
    destruct n as [| [p | p |]]; simpl in Heq; rewrite ?length_app in Heq;
      simpl in Heq; lia. }
  rewrite int2_cons.
  - rewrite int2_acc_app, int2_acc_zeros. f_equal.
    destruct n as [| p]; [done |]. apply int2_acc_pos_digits.
  - intros Heq. apply app_eq_nil in Heq as [_ ?]. done.
Qed.

Lemma format_08b_small (n : N) : (n < 256)%N → length (format_08b n) = 8.
Proof.
  intros Hn. unfold format_08b, rjust0.
  assert (length (bin_digits n) ≤ 8) as Hlen.
  { destruct n as [| p]; [simpl; lia |].
    do 8 (destruct p as [p | p |]; [| | simpl; lia]); lia. }
  rewrite length_app, length_replicate. lia.
Qed.

Lemma format_08b_int2 (c : list bool) :
  length c = 8 →
  ∃ v, int2 c = Some v ∧ (v < 256)%N ∧ format_08b v = c.
Proof.
  intros Hlen.
  do 8 (destruct c as [| [] c]; [done | |]);
    (destruct c; [| done]); eexists; (split; [reflexivity |]);
    (split; [reflexivity | reflexivity]).
Qed.

Lemma mapM_fmap {A B C} (f : B → option C) (g : A → B) (l : list A) :
  mapM f (g <$> l) = mapM (f ∘ g) l.
Proof. induction l as [| x l IH]; [done |]. simpl. rewrite <- IH. reflexivity. Qed.

Lemma mapM_ext_in {A B} (f g : A → option B) (l : list A) :
  (∀ x, x ∈ l → f x = g x) → mapM f l = mapM g l.
Proof.
  induction l as [| x l IH]; intros Hext; [done |]. simpl.
  rewrite Hext by (by left). rewrite IH; [done |].
  intros y Hy. apply Hext. by right.
Qed.

Lemma range8_add (n : nat) :
  range8 (8 + n) = 0 :: ((fun i => i + 8) <$> range8 n).
Proof.
  unfold range8.
  replace ((8 + n + 7) / 8) with (S ((n + 7) / 8)).
  2:{ replace (8 + n + 7) with (1 * 8 + (n + 7)) by lia.
      rewrite Nat.div_add_l by lia. lia. }
  rewrite <- cons_seq, <- fmap_S_seq, fmap_cons, <- !list_fmap_compose.
  f_equal. apply list_fmap_ext. intros _ j _. simpl. lia.
Qed.

Lemma __encoded_to_bin_app (c rest : list bool) :
  length c = 8 →
  __encoded_to_bin (c ++ rest) =
    v ← int2 c; vs ← __encoded_to_bin rest; Some (v :: vs).
Proof.
  intros Hlen. unfold __encoded_to_bin.
  rewrite length_app, Hlen, range8_add. simpl.
  rewrite (py_slice_chunk (c ++ rest) 0
             : py_slice (c ++ rest) (Z.of_nat 0) (Z.of_nat 8) = _).
  rewrite drop_0, take_app_length' by done.
  destruct (int2 c) as [v |]; simpl; [| done].
  rewrite mapM_fmap.
  rewrite (mapM_ext_in _ (fun i => int2 (py_slice rest (Z.of_nat i) (Z.of_nat (i + 8))))).
  - done.
  - intros i _. simpl. rewrite !py_slice_chunk.
    replace (i + 8) with (length c + i) by lia. by rewrite drop_app_add.
Qed.

Lemma read_bits_cons (b : N) (bs : list N) :
  read_bits (b :: bs) = format_08b b ++ read_bits bs.
Proof.
  unfold read_bits. simpl. generalize (format_08b b) as acc.
  induction bs as [| b' bs IH]; intros acc; simpl.
  - by rewrite app_nil_r.
  - rewrite IH, (IH (format_08b b')). by rewrite app_assoc.
Qed.

Lemma bytes_cons (b : N) (bs : list N) :
  (b < 256)%N → bytes bs = Some bs → bytes (b :: bs) = Some (b :: bs).
Proof.
  unfold bytes. simpl. intros Hb%N.ltb_lt Hbs. rewrite Hb. simpl.
  by destruct (forallb _ bs).
Qed.

(** A bit string of whole bytes is packed without error, and reading the
    bytes back gives the same bit string. *)
Lemma __encoded_to_bin_read_bits (n : nat) (e : list bool) :
  length e = 8 * n →
  ∃ bs, __encoded_to_bin e = Some bs ∧ bytes bs = Some bs ∧ read_bits bs = e.
Proof.
  revert e. induction n as [| n IH]; intros e Hlen.
  { destruct e; [| simpl in Hlen; lia]. by exists []. }
  rewrite <- (take_drop 8 e).
  assert (length (take 8 e) = 8) as Hc by (rewrite length_take; lia).
  destruct (format_08b_int2 _ Hc) as (v & Hv & Hvlt & Hfmt).
  destruct (IH (drop 8 e)) as (bs & Hbs & Hbytes & Hread).
  { rewrite length_drop. lia. }
  exists (v :: bs). split_and!.
  - rewrite __encoded_to_bin_app by done. by rewrite Hv, Hbs.
  - by apply bytes_cons.
  - by rewrite read_bits_cons, Hfmt, Hread.
Qed.

Lemma pad_amount_of_range (body : list bool) :
  (1 ≤ pad_amount_of body ≤ 8)%N ∧
  (length body + N.to_nat (pad_amount_of body)) mod 8 = 0.
Proof.
  unfold pad_amount_of.
  pose proof (N.mod_upper_bound (N.of_nat (length body)) 8 ltac:(done)) as Hlt.
  pose proof (N.div_mod' (N.of_nat (length body)) 8) as Hdm.
  set (r := (N.of_nat (length body) mod 8)%N) in *.
  set (q := (N.of_nat (length body) / 8)%N) in *.
  clearbody r q.
  split; [lia |].
  assert (length body + N.to_nat (8 - r) = (N.to_nat q + 1) * 8) as -> by lia.
  by rewrite Nat.Div0.mod_mul.
Qed.

Lemma __remove_pad_padded (pad : N) (body : list bool) :
  (1 ≤ pad ≤ 8)%N →
  __remove_pad (format_08b pad ++ body ++ replicate (N.to_nat pad) false)
  = Some body.
Proof.
  intros Hpad. unfold __remove_pad.
  assert (length (format_08b pad) = 8) as Hlen by (apply format_08b_small; lia).
  rewrite py_slice_0_8, take_app_length' by done.
  rewrite int2_format_08b. simpl.
  rewrite py_slice_8_neg by lia.
  rewrite <- Hlen at 2. rewrite drop_app_length.
  rewrite !length_app, length_replicate, Hlen.
  replace (8 + (length body + N.to_nat pad) - N.to_nat pad - 8)
    with (length body) by lia.
  by rewrite take_app_length.
Qed.

Section packing.
Context `{Countable char}.
Implicit Types (self : HuffmanCoding char) (text : list char).

Lemma __encode_text_unfold self text body :
  concat_codes self text = Some body →
  __encode_text self text =
    Some (format_08b (pad_amount_of body) ++ body ++
          replicate (N.to_nat (pad_amount_of body)) false).
Proof. intros Hbody. unfold __encode_text. by rewrite Hbody. Qed.

(** From the concatenated codes to the bytes written, and back to the
    concatenated codes. *)
Lemma pack_unpack self text body :
  concat_codes self text = Some body →
  ∃ stream,
    (encoded_text ← __encode_text self text;
     bin_array ← __encoded_to_bin encoded_text;
     bytes bin_array) = Some (pad_amount_of body :: stream) ∧
    read_bits (pad_amount_of body :: stream) =
      format_08b (pad_amount_of body) ++ body ++
      replicate (N.to_nat (pad_amount_of body)) false ∧
    __remove_pad (read_bits (pad_amount_of body :: stream)) = Some body.
Proof.
  intros Hbody. rewrite (__encode_text_unfold _ _ _ Hbody). simpl.
  destruct (pad_amount_of_range body) as [Hpad Hmod].
  set (pad := pad_amount_of body) in *.
  assert (length (format_08b pad) = 8) as Hlen by (apply format_08b_small; lia).
  set (payload := body ++ replicate (N.to_nat pad) false).
  destruct (__encoded_to_bin_read_bits (length payload / 8) payload)
    as (stream & Hstream & Hbytes & Hread).
  { unfold payload. rewrite length_app, length_replicate.
    pose proof (Nat.div_mod_eq (length body + N.to_nat pad) 8). lia. }
  exists stream.
  assert (read_bits (pad :: stream) = format_08b pad ++ payload) as Hbits.
  { by rewrite read_bits_cons, Hread. }
  split_and!.
  - rewrite __encoded_to_bin_app by done.
    rewrite int2_format_08b, Hstream. simpl.
    apply bytes_cons; [lia | done].
  - done.
  - rewrite Hbits. by apply __remove_pad_padded.
Qed.

End packing.

(** ** Counting, encoding and decoding a text *)

Section text_facts.
Context `{Countable char}.
Implicit Types (self : HuffmanCoding char) (text : list char)
  (d : list (char * nat)).

(** *** [Counter] *)

Lemma Counter_incr_keys c d :
  (Counter_incr c d).*1 = if decide (c ∈ d.*1) then d.*1 else d.*1 ++ [c].
Proof.
  induction d as [| [k n] d IH].
  { destruct (decide (c ∈ ([] : list (char * nat)).*1)) as [Hin | _]; [| done].
    by apply elem_of_nil in Hin. }
  cbn [Counter_incr]. rewrite !fmap_cons. cbn [fst].
  destruct (decide (k = c)) as [-> | Hne].
  - rewrite fmap_cons. cbn [fst].
    destruct (decide (c ∈ c :: d.*1)) as [| Hout]; [done |].
    destruct Hout. by left.
  - rewrite fmap_cons, IH. cbn [fst].
    destruct (decide (c ∈ d.*1)) as [Hin | Hout];
      destruct (decide (c ∈ k :: d.*1)) as [Hin' | Hout']; try done.
    + destruct Hout'. by right.
    + apply elem_of_cons in Hin' as [? | ?]; congruence.
Qed.

Lemma Counter_incr_NoDup c d : NoDup d.*1 → NoDup (Counter_incr c d).*1.
Proof.
  intros Hnd. rewrite Counter_incr_keys. case_decide as Hin; [done |].
  apply NoDup_app. split_and!; [done | | apply NoDup_singleton].
  intros x Hx ->%list_elem_of_singleton. done.
Qed.

Lemma Counter_incr_elem_of c d x :
  x ∈ (Counter_incr c d).*1 ↔ x = c ∨ x ∈ d.*1.
Proof.
  rewrite Counter_incr_keys. case_decide as Hin.
  - split; [by right | by intros [-> | ?]].
  - rewrite elem_of_app, list_elem_of_singleton. tauto.
Qed.

Lemma Counter_fold text d :
  NoDup d.*1 →
  NoDup (fold_left (fun d c => Counter_incr c d) text d).*1 ∧
  ∀ x, x ∈ (fold_left (fun d c => Counter_incr c d) text d).*1
       ↔ x ∈ text ∨ x ∈ d.*1.
Proof.
  revert d. induction text as [| c text IH]; intros d Hnd; simpl.
  { split; [done |]. intros x. rewrite elem_of_nil. tauto. }
  destruct (IH (Counter_incr c d) (Counter_incr_NoDup c d Hnd)) as [IH1 IH2].
  split; [done |]. intros x.
  rewrite IH2, Counter_incr_elem_of, elem_of_cons. tauto.
Qed.

Lemma Counter_NoDup text : NoDup (Counter text).*1.
Proof. apply Counter_fold. constructor. Qed.

Lemma Counter_elem_of text x : x ∈ (Counter text).*1 ↔ x ∈ text.
Proof.
  unfold Counter. rewrite (proj2 (Counter_fold text [] (NoDup_nil_2))).
  simpl. rewrite elem_of_nil. tauto.
Qed.

Lemma Counter_nonempty text : text ≠ [] → Counter text ≠ [].
Proof.
  intros Hne Heq. destruct text as [| c text]; [done |].
  assert (c ∈ (Counter (c :: text)).*1) as Hin by (apply Counter_elem_of; by left).
  rewrite Heq in Hin. by apply elem_of_nil in Hin.
Qed.

(** *** The first loop of [__encode_text] *)

Lemma concat_codes_Some self text :
  (∀ c, c ∈ text → is_Some (codes_hash_table self !! c)) →
  concat_codes self text = Some (concat (code_of self <$> text)).
Proof.
  unfold concat_codes. intros Hall.
  assert (∀ acc : list bool,
    foldl (fun acc char =>
             encoded_text ← acc;
             code ← codes_hash_table self !! char;
             Some (encoded_text ++ code)) (Some acc) text
    = Some (acc ++ concat (code_of self <$> text))) as Hgen.
  { induction text as [| c text IH]; intros acc.
    - simpl. by rewrite app_nil_r.
    - destruct (Hall c ltac:(by left)) as [code Hcode].
      rewrite fmap_cons, concat_cons. cbn [foldl]. simpl.
      rewrite Hcode. simpl. rewrite IH.
      + unfold code_of. rewrite Hcode. simpl. by rewrite app_assoc.
      + intros c' Hc'. apply Hall. by right. }
  apply Hgen.
Qed.

(** *** The loop of [__decode_text] *)

Lemma decode_scan_app self (st : list char * list bool) (bits1 bits2 : list bool) :
  foldl (decode_step self) st (bits1 ++ bits2)
  = foldl (decode_step self) (foldl (decode_step self) st bits1) bits2.
Proof. apply foldl_app. Qed.

(** A candidate that can never grow into a key is kept to the end and then
    dropped: the text decoded is the one decoded before it. *)
Lemma decode_unmatched_tail self (out : list char) (cand tail : list bool) :
  (∀ p, p ≠ [] → p `prefix_of` tail →
        reverse_codes_hash_table self !! (cand ++ p) = None) →
  foldl (decode_step self) (out, cand) tail = (out, cand ++ tail).
Proof.
  revert cand. induction tail as [| b tail IH]; intros cand Hnone.
  { by rewrite app_nil_r. }
  cbn [foldl]. unfold decode_step at 2. simpl.
  rewrite (Hnone [b]); [| done | by apply prefix_cons, prefix_nil].
  rewrite IH.
  - by rewrite <- app_assoc.
  - intros p Hp Hpre. rewrite <- app_assoc. apply Hnone; [done |].
    simpl. by apply prefix_cons.
Qed.



End text_facts.

(** ** The codec *)

Lemma NoDup_fst_functional {A B} (l : list (A * B)) k v1 v2 :
  NoDup l.*1 → (k, v1) ∈ l → (k, v2) ∈ l → v1 = v2.
Proof.
  induction l as [| [k' v'] l IH]; intros Hnd H1 H2.
  { by apply elem_of_nil in H1. }
  rewrite fmap_cons in Hnd. apply NoDup_cons in Hnd as [Hk Hnd]. simpl in Hk.
  assert (∀ v, (k', v) ∈ l → False) as Hfresh.
  { intros v Hv. apply Hk, list_elem_of_fmap. by exists (k', v). }
  apply elem_of_cons in H1 as [H1 | H1], H2 as [H2 | H2].
  - congruence.
  - injection H1 as -> ->. by destruct (Hfresh v2).
  - injection H2 as -> ->. by destruct (Hfresh v1).
  - by apply IH.
Qed.

Section codec_facts.
Context `{Countable char}.
Implicit Types (fd : list (char * nat)) (self : HuffmanCoding char)
  (text : list char).

(** The two tables after [build_code_tables]: the reverse table is the
    inverse of the code table. *)
Lemma build_code_tables_reverse fd :
  fd ≠ [] → NoDup fd.*1 →
  ∃ self,
    build_code_tables new_HuffmanCoding fd = Some self ∧
    (∀ k, k ∈ fd.*1 ↔ is_Some (codes_hash_table self !! k)) ∧
    prefix_free_on fd.*1 (code_of self) ∧
    (∀ k, k ∈ fd.*1 → reverse_codes_hash_table self !! code_of self k = Some k) ∧
    (∀ p k, reverse_codes_hash_table self !! p = Some k →
            k ∈ fd.*1 ∧ code_of self k = p).
Proof.
  intros Hne Hnd.
  destruct (build_code_tables_prefix_free fd Hne Hnd)
    as (root & self & Hrun & Hh & Hl & _ & Hcode & Hdom & Hpf).
  destruct (build_code_tables_spec fd Hne Hnd)
    as (root' & self' & Hrun' & Hh' & Hl' & _ & Hin & _ & Hout).
  assert (self' = self) as -> by congruence.
  exists self. split_and!; [done | done | done | |].
  - intros k Hk. rewrite <- Hl' in Hk.
    apply leaf_codes_of_key in Hk as (f & p & Hkp).
    destruct (Hin k f p Hkp) as [Hc Hr].
    unfold code_of. by rewrite Hc.
  - intros p k Hpk.
    destruct (decide (p ∈ (leaf_codes root' []).*2)) as [Hp | Hp].
    + apply list_elem_of_fmap in Hp as ([[k' f] p'] & -> & Hkp). simpl in *.
      destruct (Hin k' f p' Hkp) as [Hc Hr].
      assert (k = k') as -> by congruence.
      split.
      * rewrite <- Hl'. unfold leaves. apply list_elem_of_fmap.
        exists (k', f). split; [done |]. apply list_elem_of_fmap.
        by exists (k', f, p').
      * unfold code_of. by rewrite Hc.
    + rewrite (Hout p Hp) in Hpk. done.
Qed.

(** With at least two symbols in the table, no code is empty. *)
Lemma prefix_free_on_nonempty (keys : list char) (code : char → list bool) a b :
  prefix_free_on keys code → a ∈ keys → b ∈ keys → a ≠ b →
  ∀ k, k ∈ keys → code k ≠ [].
Proof.
  intros Hpf Ha Hb Hab k Hk Hnil.
  destruct (decide (k = a)) as [-> | Hka].
  - apply (Hpf a b Ha Hb Hab). rewrite Hnil. apply prefix_nil.
  - apply (Hpf k a Hk Ha Hka). rewrite Hnil. apply prefix_nil.
Qed.


(** Claim C6. Prefix-freedom: for a non-empty frequency table (a
    dictionary, so with distinct keys), [build_code_tables] succeeds on a
    fresh object, the table has a code for exactly the symbols of the
    frequency table, and for two distinct symbols neither code is a prefix
    of the other. *)
Theorem prefix_freedom fd :
  fd ≠ [] → NoDup fd.*1 →
  ∃ self,
    build_code_tables new_HuffmanCoding fd = Some self ∧
    (∀ k, k ∈ fd.*1 ↔ is_Some (codes_hash_table self !! k)) ∧
    ∀ k1 k2 c1 c2,
      k1 ≠ k2 →
      codes_hash_table self !! k1 = Some c1 →
      codes_hash_table self !! k2 = Some c2 →
      ¬ c1 `prefix_of` c2 ∧ ¬ c2 `prefix_of` c1.
Proof.
  intros Hne Hnd.
  destruct (build_code_tables_prefix_free fd Hne Hnd)
    as (root & self & Hrun & _ & _ & _ & _ & Hdom & Hpf).
  exists self. split_and!; [done | done |].
  intros k1 k2 c1 c2 Hne12 Hc1 Hc2.
  assert (k1 ∈ fd.*1) as Hk1 by (apply Hdom; eauto).
  assert (k2 ∈ fd.*1) as Hk2 by (apply Hdom; eauto).
  pose proof (Hpf k1 k2 Hk1 Hk2 Hne12) as H12.
  pose proof (Hpf k2 k1 Hk2 Hk1 (not_eq_sym Hne12)) as H21.
  unfold code_of in H12, H21. rewrite Hc1, Hc2 in H12, H21. done.
Qed.

(** Claim C7. Tree frequency invariant: for a non-empty frequency table,
    the merge loop of [__build_tree] ends with exactly one node in the heap,
    the root, and in the tree below it every node is either a leaf carrying
    a symbol or an internal node with exactly two children whose frequency
    is the sum of theirs. *)
Theorem tree_frequency_invariant fd :
  fd ≠ [] →
  ∃ self root,
    __build_tree (__build_heap new_HuffmanCoding fd) = Some self ∧
    min_heap self = [root] ∧
    tree_invariant root.
Proof.
  intros Hne.
  destruct (build_code_tables_run fd Hne) as (root & Htree & _ & Hh & _).
  eexists _, root. split_and!; [exact Htree | done |].
  by apply Huff_tree_invariant.
Qed.

(** Claim C8. Optimality: for a non-empty frequency table, the code table
    built by the greedy merge is prefix-free and costs no more (sum of
    frequency times code length) than any prefix-free binary code for the
    same symbols; and a symbol of strictly higher frequency never has a
    strictly longer code. *)
Theorem optimality fd :
  fd ≠ [] → NoDup fd.*1 →
  ∃ self,
    build_code_tables new_HuffmanCoding fd = Some self ∧
    prefix_free_on fd.*1 (code_of self) ∧
    (∀ code : char → list bool,
       prefix_free_on fd.*1 code →
       code_cost fd (code_of self) ≤ code_cost fd code) ∧
    (∀ k1 f1 k2 f2,
       (k1, f1) ∈ fd → (k2, f2) ∈ fd → f2 < f1 →
       length (code_of self k1) ≤ length (code_of self k2)).
Proof.
  intros Hne Hnd.
  destruct (build_code_tables_prefix_free fd Hne Hnd)
    as (root & self & Hrun & Hh & Hl & Hc & Hcode & Hdom & Hpf).
  assert (∀ code : char → list bool,
            prefix_free_on fd.*1 code →
            code_cost fd (code_of self) ≤ code_cost fd code) as Hopt.
  { intros code Hcpf.
    rewrite <- (code_cost_perm _ _ (code_of self) Hl).
    rewrite (code_cost_leaves root (code_of self) Hcode).
    by apply code_cost_lower_bound. }
  exists self. split_and!; [done | done | done |].
  intros k1 f1 k2 f2 Hin1 Hin2 Hlt.
  destruct (decide (length (code_of self k1) ≤ length (code_of self k2)))
    as [| Hlonger]; [done | exfalso].
  assert (k1 ≠ k2) as Hne12.
  { intros ->. pose proof (NoDup_fst_functional fd k2 f1 f2 Hnd Hin1 Hin2). lia. }
  assert (k1 ∈ fd.*1) as Hk1 by (apply list_elem_of_fmap; by exists (k1, f1)).
  assert (k2 ∈ fd.*1) as Hk2 by (apply list_elem_of_fmap; by exists (k2, f2)).
  pose proof (Hopt _ (swap_codes_prefix_free _ _ k1 k2 Hk1 Hk2 Hpf)) as Hswap.
  pose proof (code_cost_swap fd (code_of self) k1 f1 k2 f2 Hnd Hin1 Hin2 Hne12).
  nia.
Qed.

End codec_facts.

(** ** The packed stream *)

Section claims_stream.
Context `{Countable char}.
Implicit Types (fd : list (char * nat)) (self : HuffmanCoding char)
  (text : list char).

(** *** A text made of one repeated character *)

Lemma Counter_replicate (c : char) (n : nat) :
  Counter (replicate (S n) c) = [(c, S n)].
Proof.
  unfold Counter. simpl.
  assert (∀ m, fold_left (fun d c => Counter_incr c d) (replicate n c) [(c, m)]
               = [(c, m + n)]) as Hgen.
  { induction n as [| n IH]; intros m; simpl.
    - by rewrite Nat.add_0_r.
    - rewrite decide_True by done. rewrite IH. f_equal. f_equal. lia. }
  apply Hgen.
Qed.

Lemma build_code_tables_single (c : char) (n : nat) :
  build_code_tables new_HuffmanCoding [(c, n)] = Some (single_tables c).
Proof. reflexivity. Qed.

Lemma concat_codes_single (c : char) (n : nat) :
  concat_codes (single_tables c) (replicate n c) = Some [].
Proof.
  rewrite concat_codes_Some.
  - f_equal. induction n as [| n IH]; [done |].
    change (replicate (S n) c) with (c :: replicate n c).
    rewrite fmap_cons, concat_cons, IH.
    unfold code_of. simpl. by rewrite lookup_insert_eq.
  - intros c' ->%elem_of_replicate_inv. simpl. rewrite lookup_insert_eq. eauto.
Qed.

Lemma compress_unfold self text self' :
  build_code_tables self (Counter text) = Some self' →
  compress self text =
    (encoded_text ← __encode_text self' text;
     bin_array ← __encoded_to_bin encoded_text;
     bin_bytes ← bytes bin_array;
     Some (bin_bytes, self')).
Proof. intros Hrun. unfold compress, __make_freq_dict. by rewrite Hrun. Qed.

Lemma compress_single (c : char) (n : nat) :
  compress new_HuffmanCoding (replicate (S n) c)
  = Some ([8; 0]%N, single_tables c).
Proof.
  rewrite (compress_unfold _ _ (single_tables c)).
  - rewrite (__encode_text_unfold _ _ [] (concat_codes_single c (S n))).
    reflexivity.
  - rewrite Counter_replicate. apply build_code_tables_single.
Qed.

Lemma decompress_header_8 self : decompress self [8; 0]%N = Some [].
Proof. reflexivity. Qed.

(** Claim C2. Single-symbol alphabet, as the code behaves: for the text of
    [n + 1] copies of one character [c], the code of [c] in the table is the
    empty string, not a one-bit code, and the bytes written are decompressed
    to the empty text, not to the text. *)
Theorem single_symbol_code_is_empty (c : char) (n : nat) :
  ∃ compressed h,
    compress new_HuffmanCoding (replicate (S n) c) = Some (compressed, h) ∧
    codes_hash_table h !! c = Some [] ∧
    decompress h compressed = Some [] ∧
    main (replicate (S n) c) = Some (compressed, []).
Proof.
  exists [8; 0]%N, (single_tables c). split_and!.
  - apply compress_single.
  - apply lookup_insert_eq.
  - apply decompress_header_8.
  - unfold main. rewrite compress_single. reflexivity.
Qed.

(** Claim C10. Every text of [n >= 1] copies of one character is
    compressed to the same two bytes, the header byte 8 and one zero byte,
    whatever [n] is. *)
Theorem single_symbol_stream (c : char) (n : nat) :
  1 ≤ n →
  ∃ h, compress new_HuffmanCoding (replicate n c) = Some ([8; 0]%N, h).
Proof.
  intros Hn. destruct n as [| n]; [lia |].
  exists (single_tables c). apply compress_single.
Qed.

(** *** The pad and the header byte *)

Lemma pad_amount_of_aligned (body : list bool) :
  length body mod 8 = 0 → pad_amount_of body = 8%N.
Proof.
  intros Hmod. unfold pad_amount_of.
  assert ((N.of_nat (length body) mod 8)%N = 0%N) as ->; [| done].
  rewrite <- (Nat2N.id (length body)) in Hmod.
  change 8 with (N.to_nat 8) in Hmod.
  rewrite <- N2Nat.inj_mod in Hmod. lia.
Qed.

(** Claim C4. Pad boundary case: when the concatenated codes already fill
    whole bytes, [__encode_text] still appends eight pad bits and writes 8
    in the header; the header byte of the packed stream is 8, and
    [__remove_pad] strips exactly the header and these eight bits. *)
Theorem pad_boundary self text (body : list bool) :
  concat_codes self text = Some body →
  length body mod 8 = 0 →
  ∃ stream,
    __encode_text self text
      = Some (format_08b 8 ++ body ++ replicate 8 false) ∧
    (encoded_text ← __encode_text self text;
     bin_array ← __encoded_to_bin encoded_text;
     bytes bin_array) = Some (8%N :: stream) ∧
    length (read_bits (8%N :: stream)) = 8 + length body + 8 ∧
    __remove_pad (read_bits (8%N :: stream)) = Some body.
Proof.
  intros Hbody Hmod.
  destruct (pack_unpack self text body Hbody) as (stream & Hpack & Hread & Hunpad).
  pose proof (__encode_text_unfold self text body Hbody) as Henc.
  rewrite (pad_amount_of_aligned body Hmod) in *.
  exists stream. split_and!; [done | done | | done].
  rewrite Hread, !length_app, length_replicate. done.
Qed.

(** Claim C5, amended: the header byte of every stream that [compress]
    returns is the pad amount, between 1 and 8. *)
Theorem header_byte_range self text (compressed : list N) h :
  compress self text = Some (compressed, h) →
  ∃ header stream,
    compressed = header :: stream ∧ (1 ≤ header ≤ 8)%N.
Proof.
  unfold compress. intros Hrun.
  destruct (build_code_tables self (__make_freq_dict text)) as [self' |];
    [| done]. simpl in Hrun.
  destruct (concat_codes self' text) as [body |] eqn:Hbody.
  2:{ unfold __encode_text in Hrun. by rewrite Hbody in Hrun. }
  destruct (pack_unpack self' text body Hbody) as (stream & Hpack & _ & _).
  destruct (__encode_text self' text) as [encoded_text |]; [| done].
  simpl in *.
  destruct (__encoded_to_bin encoded_text) as [bin_array |]; [| done].
  simpl in *. rewrite Hpack in Hrun. simpl in Hrun. injection Hrun as <- <-.
  exists (pad_amount_of body), stream. split; [done |].
  apply pad_amount_of_range.
Qed.

(** *** Decoding bytes that [compress] did not write *)

Lemma read_bits_nonempty (b : N) (file : list N) :
  ∃ c bits, py_slice (read_bits (b :: file)) 0 8 = c :: bits.
Proof.
  rewrite py_slice_0_8, read_bits_cons. unfold format_08b, rjust0.
  assert (bin_digits b ≠ []) as Hne.
  { intros Heq. apply (f_equal length) in Heq.
    destruct b as [| [p | p |]]; simpl in Heq; rewrite ?length_app in Heq;
      simpl in Heq; lia. }
  destruct (replicate (8 - length (bin_digits b)) false ++ bin_digits b)
    as [| c rest] eqn:Heq.
  { apply app_eq_nil in Heq as [_ ?]. done. }
  simpl. eauto.
Qed.

(** Claim C9. A header byte 0 makes [__remove_pad] return the empty
    string ([bit_string[8:-0]]), so the decoded text is empty whatever the
    payload bytes are. *)
Theorem header_zero_decodes_empty self (payload : list N) :
  decompress self (0%N :: payload) = Some [].
Proof.
  unfold decompress, __remove_pad.
  rewrite py_slice_0_8, read_bits_cons.
  change (format_08b 0) with (replicate 8 false).
  rewrite take_app_length' by done. simpl.
  by rewrite (py_slice_8_0 (_ :: _)).
Qed.

(** Claim C3, amended: [decompress] signals no error on a non-empty
    input, whatever candidate is left at the end of the scan; it returns the
    text decoded by [__decode_text], and trailing bits that never complete a
    key of the reverse table are dropped without a trace. *)
Theorem decode_drops_unmatched_tail self (file : list N) :
  file ≠ [] →
  ∃ compressed_text,
    __remove_pad (read_bits file) = Some compressed_text ∧
    decompress self file = Some (__decode_text self compressed_text) ∧
    ∀ body tail,
      compressed_text = body ++ tail →
      (decode_scan self body).2 = [] →
      (∀ p, p ≠ [] → p `prefix_of` tail →
            reverse_codes_hash_table self !! p = None) →
      decode_scan self compressed_text = ((decode_scan self body).1, tail) ∧
      __decode_text self compressed_text = __decode_text self body.
Proof.
  intros Hne. destruct file as [| b file]; [done |].
  destruct (read_bits_nonempty b file) as (c & bits & Hhead).
  unfold decompress, __remove_pad. rewrite Hhead. simpl.
  eexists. split_and!; [done | done |].
  intros body tail -> Hcand Hnone.
  unfold __decode_text, decode_scan in *.
  rewrite decode_scan_app.
  destruct (foldl (decode_step self) ([], []) body) as [out cand].
  simpl in Hcand. subst cand.
  rewrite decode_unmatched_tail; [done |].
  intros p Hp Hpre. simpl. by apply Hnone.
Qed.

End claims_stream.

(** * Examples on concrete texts *)

(** Each conjunct is a closed equation, settled by evaluation. *)
Ltac by_evaluation :=
  repeat (split; [vm_compute; reflexivity |]); vm_compute; reflexivity.

(** The example of the specification: ["AABBBCCCC"] is written as the header
    byte 2 and two bytes of codes, and read back. *)
Lemma compress_AABBBCCCC :
  compress new_HuffmanCoding (text_of "AABBBCCCC")
    = Some ([2; 175; 192]%N, ABC_tables) ∧
  decompress ABC_tables [2; 175; 192]%N = Some (text_of "AABBBCCCC").
Proof. by_evaluation. Qed.

(** ["abababab"] is coded on eight bits, and padded with eight more. *)
Lemma compress_abababab :
  compress new_HuffmanCoding (text_of "abababab")
    = Some ([8; 85; 0]%N, ab_tables).
Proof. by_evaluation. Qed.

(** Claim C1. Round trip, at a text of one repeated character: the script
    compresses ["aaaa"] to the bytes 8, 0 and decompresses them to the empty
    text, not to ["aaaa"]. For the texts with at least two different
    characters the round trip holds ([roundtrip_two_symbols]). *)
Theorem roundtrip_fails_on_aaaa :
  main (text_of "aaaa") = Some ([8; 0]%N, []) ∧ text_of "aaaa" ≠ [].
Proof. split; [vm_compute; reflexivity | done]. Qed.

(** Claim C3, counterexample: the stream of ["AABBBCCCC"] with its header
    byte set to 9, and the stream of ["ABBCCCABBCCC"] without its last byte.
    In both the scan ends on the candidate ["1"], which is not a key of the
    reverse table, and [decompress] returns a text instead of an error. *)
Lemma corrupt_stream_not_rejected :
  (compress new_HuffmanCoding (text_of "AABBBCCCC")
     = Some ([2; 175; 192]%N, ABC_tables) ∧
   decode_scan ABC_tables <$> __remove_pad (read_bits [9; 175; 192]%N)
     = Some (text_of "AAB", [true]) ∧
   decompress ABC_tables [9; 175; 192]%N = Some (text_of "AAB")) ∧
  (compress new_HuffmanCoding (text_of "ABBCCCABBCCC")
     = Some ([6; 188; 94; 0]%N, ABC_tables) ∧
   decode_scan ABC_tables <$> __remove_pad (read_bits [6; 188; 94]%N)
     = Some (text_of "ABBCCC", [true]) ∧
   decompress ABC_tables [6; 188; 94]%N = Some (text_of "ABBCCC")) ∧
  reverse_codes_hash_table ABC_tables !! [true] = None.
Proof. split; [by_evaluation |]. split; by_evaluation. Qed.

(** [decode_drops_unmatched_tail] on the bytes 9, 175, 192. *)
Lemma decode_drops_unmatched_tail_witness :
  [9; 175; 192]%N ≠ [] ∧
  ∃ compressed_text,
    __remove_pad (read_bits [9; 175; 192]%N) = Some compressed_text ∧
    decompress ABC_tables [9; 175; 192]%N
      = Some (__decode_text ABC_tables compressed_text) ∧
    ∀ body tail,
      compressed_text = body ++ tail →
      (decode_scan ABC_tables body).2 = [] →
      (∀ p, p ≠ [] → p `prefix_of` tail →
            reverse_codes_hash_table ABC_tables !! p = None) →
      decode_scan ABC_tables compressed_text
        = ((decode_scan ABC_tables body).1, tail) ∧
      __decode_text ABC_tables compressed_text
        = __decode_text ABC_tables body.
Proof.
  assert ([9; 175; 192]%N ≠ []) as Hne by done.
  exact (conj Hne (decode_drops_unmatched_tail ABC_tables _ Hne)).
Defined.

(** [pad_boundary] on ["abababab"], whose codes fill one byte. *)
Lemma pad_boundary_witness :
  concat_codes ab_tables (text_of "abababab")
    = Some [false; true; false; true; false; true; false; true] ∧
  length [false; true; false; true; false; true; false; true] mod 8 = 0 ∧
  ∃ stream,
    __encode_text ab_tables (text_of "abababab")
      = Some (format_08b 8 ++
              [false; true; false; true; false; true; false; true] ++
              replicate 8 false) ∧
    (encoded_text ← __encode_text ab_tables (text_of "abababab");
     bin_array ← __encoded_to_bin encoded_text;
     bytes bin_array) = Some (8%N :: stream) ∧
    length (read_bits (8%N :: stream))
      = 8 + length [false; true; false; true; false; true; false; true] + 8 ∧
    __remove_pad (read_bits (8%N :: stream))
      = Some [false; true; false; true; false; true; false; true].
Proof.
  assert (concat_codes ab_tables (text_of "abababab")
          = Some [false; true; false; true; false; true; false; true])
    as Hbody by (vm_compute; reflexivity).
  assert (length [false; true; false; true; false; true; false; true] mod 8 = 0)
    as Hmod by reflexivity.
  exact (conj Hbody (conj Hmod (pad_boundary _ _ _ Hbody Hmod))).
Defined.

(** Claim C5, counterexample: the text ["abababab"] is coded on eight bits,
    so the pad is a whole byte and the header byte is 8, outside 0..7. *)
Lemma header_byte_can_be_8 :
  ∃ header stream,
    compress new_HuffmanCoding (text_of "abababab")
      = Some (header :: stream, ab_tables) ∧
    header = 8%N ∧ ¬ (0 ≤ header ≤ 7)%N.
Proof.
  exists 8%N, [85; 0]%N. split; [vm_compute; reflexivity |]. split; [done | lia].
Qed.

(** [header_byte_range] on the stream of ["AABBBCCCC"]. *)
Lemma header_byte_range_witness :
  compress new_HuffmanCoding (text_of "AABBBCCCC")
    = Some ([2; 175; 192]%N, ABC_tables) ∧
  ∃ header stream,
    [2; 175; 192]%N = header :: stream ∧ (1 ≤ header ≤ 8)%N.
Proof.
  assert (compress new_HuffmanCoding (text_of "AABBBCCCC")
          = Some ([2; 175; 192]%N, ABC_tables))
    as Hrun by (vm_compute; reflexivity).
  exact (conj Hrun (header_byte_range _ _ _ _ Hrun)).
Defined.

(** The frequency table of ["AABBBCCCC"] is a non-empty dictionary. *)
Lemma AABBBCCCC_freq_nonempty : AABBBCCCC_freq ≠ [].
Proof. done. Defined.

Lemma AABBBCCCC_freq_NoDup : NoDup AABBBCCCC_freq.*1.
Proof. apply (bool_decide_unpack _). vm_compute. exact I. Defined.

(** [prefix_freedom] on the frequency table of ["AABBBCCCC"]. *)
Lemma prefix_freedom_witness :
  AABBBCCCC_freq ≠ [] ∧ NoDup AABBBCCCC_freq.*1 ∧
  ∃ self,
    build_code_tables new_HuffmanCoding AABBBCCCC_freq = Some self ∧
    (∀ k, k ∈ AABBBCCCC_freq.*1 ↔ is_Some (codes_hash_table self !! k)) ∧
    ∀ k1 k2 c1 c2,
      k1 ≠ k2 →
      codes_hash_table self !! k1 = Some c1 →
      codes_hash_table self !! k2 = Some c2 →
      ¬ c1 `prefix_of` c2 ∧ ¬ c2 `prefix_of` c1.
Proof.
  exact (conj AABBBCCCC_freq_nonempty (conj AABBBCCCC_freq_NoDup
           (prefix_freedom _ AABBBCCCC_freq_nonempty AABBBCCCC_freq_NoDup))).
Defined.

(** [tree_frequency_invariant] on the frequency table of ["AABBBCCCC"]. *)
Lemma tree_frequency_invariant_witness :
  AABBBCCCC_freq ≠ [] ∧
  ∃ self root,
    __build_tree (__build_heap new_HuffmanCoding AABBBCCCC_freq) = Some self ∧
    min_heap self = [root] ∧
    tree_invariant root.
Proof.
  exact (conj AABBBCCCC_freq_nonempty
           (tree_frequency_invariant _ AABBBCCCC_freq_nonempty)).
Defined.

(** [optimality] on the frequency table of ["AABBBCCCC"]. *)
Lemma optimality_witness :
  AABBBCCCC_freq ≠ [] ∧ NoDup AABBBCCCC_freq.*1 ∧
  ∃ self,
    build_code_tables new_HuffmanCoding AABBBCCCC_freq = Some self ∧
    prefix_free_on AABBBCCCC_freq.*1 (code_of self) ∧
    (∀ code : ascii → list bool,
       prefix_free_on AABBBCCCC_freq.*1 code →
       code_cost AABBBCCCC_freq (code_of self) ≤ code_cost AABBBCCCC_freq code) ∧
    (∀ k1 f1 k2 f2,
       (k1, f1) ∈ AABBBCCCC_freq → (k2, f2) ∈ AABBBCCCC_freq → f2 < f1 →
       length (code_of self k1) ≤ length (code_of self k2)).
Proof.
  exact (conj AABBBCCCC_freq_nonempty (conj AABBBCCCC_freq_NoDup
           (optimality _ AABBBCCCC_freq_nonempty AABBBCCCC_freq_NoDup))).
Defined.

(** [single_symbol_stream] on ["aaaa"]. *)
Lemma single_symbol_stream_witness :
  1 ≤ 4 ∧
  ∃ h, compress new_HuffmanCoding (replicate 4 "a"%char) = Some ([8; 0]%N, h).
Proof.
  assert (1 ≤ 4) as Hn by lia.
  exact (conj Hn (single_symbol_stream "a"%char 4 Hn)).
Defined.

(** * Further properties of the module *)

Set Warnings "-clear-no-such-hyp".

Section counter_more.
Context `{Countable char}.
Implicit Types (text : list char) (d : list (char * nat)).

(** ** [__make_freq_dict] *)

Lemma occurrences_snoc (k c : char) text :
  occurrences k (text ++ [c])
  = (occurrences k text + (if decide (c = k) then 1 else 0))%nat.
Proof.
  unfold occurrences. rewrite filter_app, length_app. f_equal.
  rewrite filter_cons, filter_nil. by case_decide.
Qed.

Lemma Counter_incr_elem c d k n :
  NoDup d.*1 →
  (k, n) ∈ Counter_incr c d ↔
    (k ≠ c ∧ (k, n) ∈ d) ∨
    (k = c ∧ ((∃ m, (c, m) ∈ d ∧ n = S m) ∨ ((c ∉ d.*1) ∧ n = 1))).
Proof.
  induction d as [| [k' n'] d IH]; intros Hnd.
  { cbn [Counter_incr]. rewrite list_elem_of_singleton.
    pose proof (not_elem_of_nil c). pose proof (not_elem_of_nil (k, n)).
    assert (∀ m, (c, m) ∉ ([] : list (char * nat)))
      by (intros m; apply not_elem_of_nil).
    change (([] : list (char * nat)).*1) with (@nil char).
    naive_solver. }
  rewrite fmap_cons in Hnd. apply NoDup_cons in Hnd as [Hk' Hnd]. simpl in Hk'.
  assert (∀ m, (k', m) ∈ d → False) as Hfresh.
  { intros m Hm. apply Hk', list_elem_of_fmap. by exists (k', m). }
  cbn [Counter_incr]. destruct (decide (k' = c)) as [-> | Hne].
  - rewrite fmap_cons, !elem_of_cons. cbn [fst]. clear IH.
    setoid_rewrite elem_of_cons. naive_solver.
  - rewrite !elem_of_cons, (IH Hnd). rewrite fmap_cons, not_elem_of_cons.
    cbn [fst]. setoid_rewrite elem_of_cons. naive_solver.
Qed.

Lemma Counter_incr_sum c d :
  sum_list (Counter_incr c d).*2 = S (sum_list d.*2).
Proof.
  induction d as [| [k n] d IH]; [done |].
  cbn [Counter_incr]. destruct (decide (k = c)).
  - rewrite !fmap_cons, !sum_list_cons. simpl. lia.
  - rewrite !fmap_cons, !sum_list_cons, IH. simpl. lia.
Qed.

Lemma counts_incr c d text :
  counts d text → counts (Counter_incr c d) (text ++ [c]).
Proof.
  intros (Hnd & Hcount & Hsum). split_and!.
  - by apply Counter_incr_NoDup.
  - intros k n. rewrite (Counter_incr_elem c d k n Hnd), occurrences_snoc.
    split.
    + intros [[Hkc Hin] | [-> [(m & Hm & ->) | [Hout ->]]]].
      * apply Hcount in Hin. rewrite decide_False by done. lia.
      * apply Hcount in Hm. rewrite decide_True by done. lia.
      * rewrite decide_True by done.
        destruct (occurrences c text) as [| o] eqn:Ho; [lia |].
        destruct Hout. apply list_elem_of_fmap. exists (c, S o).
        split; [done |]. apply Hcount. lia.
    + intros [Hpos ->]. destruct (decide (c = k)) as [-> | Hne].
      * right. split; [done |].
        destruct (occurrences k text) as [| o] eqn:Ho.
        -- right. split; [| done].
           intros ([k' m] & Heq & Hin)%list_elem_of_fmap. simpl in Heq. subst k'.
           apply Hcount in Hin. lia.
        -- left. exists (S o). split; [| lia]. apply Hcount. lia.
      * left. split; [done |]. apply Hcount. lia.
  - rewrite Counter_incr_sum, Hsum, length_app. simpl. lia.
Qed.

Lemma counts_fold text d pre :
  counts d pre →
  counts (fold_left (fun d c => Counter_incr c d) text d) (pre ++ text).
Proof.
  revert d pre. induction text as [| c text IH]; intros d pre Hc; simpl.
  - by rewrite app_nil_r.
  - replace (pre ++ c :: text) with ((pre ++ [c]) ++ text)
      by (by rewrite <- app_assoc).
    by apply IH, counts_incr.
Qed.

(** X4. [__make_freq_dict]: every character of the text is a key exactly once,
    its value is the number of its occurrences, no other key is present,
    and the values add up to the length of the text. *)
Theorem __make_freq_dict_counts text :
  NoDup (__make_freq_dict text).*1 ∧
  (∀ k n, (k, n) ∈ __make_freq_dict text ↔ 0 < n ∧ n = occurrences k text) ∧
  sum_list (__make_freq_dict text).*2 = length text.
Proof.
  unfold __make_freq_dict, Counter.
  apply (counts_fold text [] []). split_and!; [constructor | | done].
  intros k n. split; [by intros ?%elem_of_nil |].
  unfold occurrences. simpl. lia.
Qed.

End counter_more.

Section compress_more.
Context `{Countable char}.
Implicit Types (self h : HuffmanCoding char) (text : list char)
  (d : list (char * nat)).

(** ** [compress] and [decompress] *)

Lemma read_bits_length (bs : list N) :
  bytes bs = Some bs → length (read_bits bs) = 8 * length bs.
Proof.
  unfold bytes. intros Hb.
  destruct (forallb (fun b => (b <? 256)%N) bs) eqn:Hall; [| done]. clear Hb.
  induction bs as [| b bs IH]; [done |].
  simpl in Hall. apply andb_true_iff in Hall as [Hb%N.ltb_lt Hall].
  rewrite read_bits_cons, length_app, format_08b_small, IH by done.
  simpl. lia.
Qed.

Lemma bytes_tail (b : N) (bs : list N) :
  bytes (b :: bs) = Some (b :: bs) → bytes bs = Some bs.
Proof.
  unfold bytes. simpl. destruct (b <? 256)%N; [| done]. simpl.
  by destruct (forallb _ bs).
Qed.

(** The second half of [compress], once the concatenated codes are known. *)
Lemma compress_stream self text self' (body : list bool) :
  build_code_tables self (Counter text) = Some self' →
  concat_codes self' text = Some body →
  ∃ stream,
    compress self text = Some (pad_amount_of body :: stream, self') ∧
    bytes (pad_amount_of body :: stream) = Some (pad_amount_of body :: stream) ∧
    read_bits (pad_amount_of body :: stream) =
      format_08b (pad_amount_of body) ++ body ++
      replicate (N.to_nat (pad_amount_of body)) false ∧
    __remove_pad (read_bits (pad_amount_of body :: stream)) = Some body.
Proof.
  intros Hrun Hbody.
  destruct (pack_unpack self' text body Hbody) as (stream & Hpack & Hread & Hunpad).
  exists stream. split_and!; [| | done | done].
  - rewrite (compress_unfold _ _ _ Hrun).
    destruct (__encode_text self' text) as [encoded_text |]; [| done].
    simpl in *.
    destruct (__encoded_to_bin encoded_text) as [bin_array |]; [| done].
    simpl in *. by rewrite Hpack.
  - destruct (__encode_text self' text) as [encoded_text |]; [| done].
    simpl in Hpack.
    destruct (__encoded_to_bin encoded_text) as [bin_array |]; [| done].
    simpl in Hpack. unfold bytes in Hpack.
    destruct (forallb _ bin_array) eqn:Hall; [| done].
    injection Hpack as ->. unfold bytes. by rewrite Hall.
Qed.

Lemma compress_inv self text (compressed : list N) h :
  compress self text = Some (compressed, h) →
  ∃ body,
    build_code_tables self (Counter text) = Some h ∧
    concat_codes h text = Some body.
Proof.
  unfold compress, __make_freq_dict. intros Hrun.
  destruct (build_code_tables self (Counter text)) as [self' |]; [| done].
  simpl in Hrun.
  destruct (concat_codes self' text) as [body |] eqn:Hbody.
  2:{ unfold __encode_text in Hrun. by rewrite Hbody in Hrun. }
  destruct (__encode_text self' text) as [encoded_text |]; [| done].
  simpl in Hrun.
  destruct (__encoded_to_bin encoded_text) as [bin_array |]; [| done].
  simpl in Hrun.
  destruct (bytes bin_array) as [bin_bytes |]; [| done].
  simpl in Hrun. injection Hrun as <- <-. eauto.
Qed.


(** X3. [decompress] fails on the empty file, where [int] is given the empty
    string, and on no other file, whatever the tables are. *)
Theorem decompress_fails_iff_empty self (file : list N) :
  decompress self file = None ↔ file = [].
Proof.
  split; [| by intros ->].
  destruct file as [| b file]; [done |]. intros Hnone. exfalso.
  destruct (read_bits_nonempty b file) as (c & bits & Hhead).
  unfold decompress, __remove_pad in Hnone. rewrite Hhead in Hnone. done.
Qed.

(** X10. The number of bytes written: the header byte, the whole bytes of code
    bits, and one more byte for the pad. *)
Theorem compressed_size self text (compressed : list N) h :
  compress self text = Some (compressed, h) →
  ∃ body,
    concat_codes h text = Some body ∧
    length compressed = 2 + length body / 8 ∧
    Forall (fun b => (b < 256)%N) compressed.
Proof.
  intros Hrun.
  destruct (compress_inv _ _ _ _ Hrun) as (body & Htables & Hbody).
  destruct (compress_stream _ _ _ _ Htables Hbody)
    as (stream & Hc & Hbytes & Hread & _).
  assert (compressed = pad_amount_of body :: stream) as -> by congruence.
  exists body. split_and!; [done | |].
  - pose proof (read_bits_length _ Hbytes) as Hlen.
    rewrite Hread, !length_app, length_replicate in Hlen.
    destruct (pad_amount_of_range body) as [Hpad _].
    rewrite format_08b_small in Hlen by lia.
    unfold pad_amount_of in *.
    pose proof (N.mod_upper_bound (N.of_nat (length body)) 8 ltac:(done)) as Hlt.
    pose proof (N.div_mod' (N.of_nat (length body)) 8) as Hdm.
    assert (N.to_nat (N.of_nat (length body) / 8) = length body / 8) as Hq.
    { rewrite N2Nat.inj_div, Nat2N.id. done. }
    set (r := (N.of_nat (length body) mod 8)%N) in *.
    set (q := (N.of_nat (length body) / 8)%N) in *.
    clearbody r q. simpl in Hlen. simpl. lia.
  - unfold bytes in Hbytes.
    destruct (forallb _ (pad_amount_of body :: stream)) eqn:Hall; [| done].
    apply Forall_forall. intros b Hb.
    rewrite forallb_forall in Hall. apply N.ltb_lt, Hall.
    by apply list_elem_of_In.
Qed.

End compress_more.

Section encode_more.
Context `{Countable char}.
Implicit Types (self h : HuffmanCoding char) (text : list char)
  (d fd : list (char * nat)).

(** ** [__encode_text] *)

Lemma concat_codes_None self text c :
  c ∈ text → codes_hash_table self !! c = None → concat_codes self text = None.
Proof.
  unfold concat_codes. intros Hin Hc.
  set (f := fun (acc : option (list bool)) (char : char) =>
              encoded_text ← acc;
              code ← codes_hash_table self !! char;
              Some (encoded_text ++ code)).
  assert (∀ t, foldl f None t = None) as Hnone.
  { induction t as [| x t IH]; [done |]. exact IH. }
  generalize (Some (@nil bool)) as acc.
  induction text as [| x text IH]; intros acc.
  { by apply elem_of_nil in Hin. }
  cbn [foldl]. apply elem_of_cons in Hin as [<- | Hin].
  - assert (f acc c = None) as ->; [| apply Hnone].
    unfold f. destruct acc; simpl; [by rewrite Hc | done].
  - by apply IH.
Qed.

(** X9. [__encode_text] fails exactly when a character of the text is not a key
    of the code table (the [KeyError] of the first loop). *)
Theorem __encode_text_KeyError self text :
  __encode_text self text = None ↔
  ∃ c, c ∈ text ∧ codes_hash_table self !! c = None.
Proof.
  split.
  - intros Hnone.
    destruct (decide (Forall (fun c => is_Some (codes_hash_table self !! c)) text))
      as [Hall | Hex].
    + rewrite Forall_forall in Hall.
      pose proof (concat_codes_Some self text Hall) as Hbody.
      by rewrite (__encode_text_unfold _ _ _ Hbody) in Hnone.
    + apply not_Forall_Exists in Hex; [| apply _].
      apply Exists_exists in Hex as (c & Hc & Hno).
      exists c. split; [done |].
      simpl in Hno.
      destruct (codes_hash_table self !! c) as [p |] eqn:Hp; [| done].
      exfalso. apply Hno. by exists p.
  - intros (c & Hin & Hc). unfold __encode_text.
    by rewrite (concat_codes_None self text c Hin Hc).
Qed.

(** ** The number of bits written *)

Lemma code_cost_Counter_incr c d (code : char → list bool) :
  code_cost (Counter_incr c d) code = code_cost d code + length (code c).
Proof.
  unfold code_cost. induction d as [| [k n] d IH].
  { simpl. lia. }
  cbn [Counter_incr]. destruct (decide (k = c)) as [-> | Hne].
  - rewrite !fmap_cons, !sum_list_cons. simpl. lia.
  - rewrite !fmap_cons, !sum_list_cons, IH. simpl. lia.
Qed.

Lemma code_cost_Counter text (code : char → list bool) :
  code_cost (Counter text) code = length (concat (code <$> text)).
Proof.
  unfold Counter.
  assert (∀ d, code_cost (fold_left (fun d c => Counter_incr c d) text d) code
               = code_cost d code + length (concat (code <$> text))) as Hgen.
  { induction text as [| c text IH]; intros d.
    - simpl. lia.
    - cbn [fold_left]. rewrite IH, code_cost_Counter_incr.
      rewrite fmap_cons, concat_cons, length_app. lia. }
  rewrite Hgen. unfold code_cost. simpl. lia.
Qed.

(** X11. No prefix-free code writes a non-empty text in fewer bits than the code
    that [compress] builds for it. *)
Theorem compress_fewest_bits text :
  text ≠ [] →
  ∃ compressed h,
    compress new_HuffmanCoding text = Some (compressed, h) ∧
    concat_codes h text = Some (concat (code_of h <$> text)) ∧
    ∀ code : char → list bool,
      prefix_free_on text code →
      length (concat (code_of h <$> text)) ≤ length (concat (code <$> text)).
Proof.
  intros Hne.
  destruct (build_code_tables_prefix_free (Counter text)
              (Counter_nonempty text Hne) (Counter_NoDup text))
    as (root & h & Hrun & Hh & Hl & Hc & Hcode & Hdom & Hpf).
  assert (concat_codes h text = Some (concat (code_of h <$> text))) as Hbody.
  { apply concat_codes_Some. intros c Hc'. by apply Hdom, Counter_elem_of. }
  destruct (compress_stream _ _ _ _ Hrun Hbody) as (stream & Hcompress & _).
  eexists _, h. split_and!; [exact Hcompress | done |].
  intros code Hcpf.
  rewrite <- !code_cost_Counter.
  rewrite <- (code_cost_perm _ _ (code_of h) Hl).
  rewrite (code_cost_leaves root (code_of h) Hcode).
  apply code_cost_lower_bound; [done | apply Counter_NoDup |].
  intros k1 k2 Hk1 Hk2 Hne12.
  apply Hcpf; [by apply Counter_elem_of | by apply Counter_elem_of | done].
Qed.

End encode_more.

Section tables_more.
Context `{Countable char}.
Implicit Types (self h : HuffmanCoding char) (text : list char)
  (fd : list (char * nat)) (node root : Node char).

(** ** [__build_heap] and [__build_tree] *)

(** X5. [__build_heap] on a fresh object: the heap holds one leaf per entry of
    the frequency dictionary, it satisfies the heap invariant, and so its
    first node has the smallest frequency. *)
Theorem __build_heap_heap fd :
  min_heap (__build_heap new_HuffmanCoding fd) ≡ₚ leaf_nodes fd ∧
  heap_ok (min_heap (__build_heap new_HuffmanCoding fd)) ∧
  ∀ first, min_heap (__build_heap new_HuffmanCoding fd) !! 0 = Some first →
           ∀ k f, (k, f) ∈ fd → freq first ≤ f.
Proof.
  destruct (__build_heap_spec new_HuffmanCoding fd) as [Hperm Hok].
  change (min_heap new_HuffmanCoding) with (@nil (Node char)) in Hperm, Hok.
  rewrite app_nil_r in Hperm. specialize (Hok heap_ok_nil).
  split_and!; [done | done |].
  intros first Hfirst k f Hin.
  apply (heap_ok_root_min _ first Hok Hfirst (new_Node (Some k) f)).
  rewrite Hperm. apply list_elem_of_fmap. by exists (k, f).
Qed.

(** X6. [__build_tree]: the leaves of the root are the entries of the frequency
    dictionary, and the frequency of the root is the sum of all
    frequencies. *)
Theorem __build_tree_root fd :
  fd ≠ [] →
  ∃ root,
    __build_tree (__build_heap new_HuffmanCoding fd)
      = Some (mkHuffmanCoding [root] ∅ ∅) ∧
    leaves root ≡ₚ fd ∧
    freq root = sum_list fd.*2.
Proof.
  intros Hne.
  destruct (build_code_tables_run fd Hne) as (root & Htree & _ & Hh & Hl & _).
  exists root. split_and!; [done | done |].
  by rewrite (Huff_freq root Hh), Hl.
Qed.

(** ** [__build_codes] *)

(** X7. After [build_code_tables] the heap is empty and the two tables are
    inverse of each other. *)
Theorem code_tables_inverse fd :
  fd ≠ [] → NoDup fd.*1 →
  ∃ self,
    build_code_tables new_HuffmanCoding fd = Some self ∧
    min_heap self = [] ∧
    ∀ k p, codes_hash_table self !! k = Some p ↔
           reverse_codes_hash_table self !! p = Some k.
Proof.
  intros Hne Hnd.
  destruct (build_code_tables_reverse fd Hne Hnd)
    as (self & Hrun & Hdom & _ & Hrev & Hinv).
  destruct (build_code_tables_run fd Hne) as (root & _ & Hrun' & _).
  exists self. split_and!; [done | |].
  { rewrite Hrun in Hrun'. by injection Hrun' as ->. }
  intros k p. split.
  - intros Hk. assert (k ∈ fd.*1) as Hin by (apply Hdom; eauto).
    specialize (Hrev k Hin). unfold code_of in Hrev. by rewrite Hk in Hrev.
  - intros Hp. destruct (Hinv p k Hp) as [Hin Hcode].
    apply Hdom in Hin as [q Hq]. unfold code_of in Hcode.
    rewrite Hq in Hcode. simpl in Hcode. by subst q.
Qed.

Lemma leaf_codes_nonempty node pre : Huff node → leaf_codes node pre ≠ [].
Proof.
  intros Hh. revert pre. induction Hh as [k f | l r Hl IHl Hr IHr]; intros pre.
  - done.
  - rewrite leaf_codes_node. intros [Heq _]%app_eq_nil. by apply (IHl _ Heq).
Qed.

Lemma leaf_codes_depth node pre x :
  Huff node → x ∈ leaf_codes node pre →
  length x.2 + 1 ≤ length pre + length (leaf_codes node pre).
Proof.
  intros Hh. revert pre. induction Hh as [k f | l r Hl IHl Hr IHr]; intros pre.
  - intros ->%list_elem_of_singleton. simpl. lia.
  - rewrite leaf_codes_node, length_app. intros [Hx | Hx]%elem_of_app.
    + specialize (IHl _ Hx). rewrite length_app in IHl. simpl in IHl.
      pose proof (leaf_codes_nonempty r (pre ++ [true]) Hr).
      destruct (leaf_codes r (pre ++ [true])); [done |]. simpl. lia.
    + specialize (IHr _ Hx). rewrite length_app in IHr. simpl in IHr.
      pose proof (leaf_codes_nonempty l (pre ++ [false]) Hl).
      destruct (leaf_codes l (pre ++ [false])); [done |]. simpl. lia.
Qed.

(** X8. With at least two symbols, every code has at least one bit and fewer
    bits than there are symbols. *)
Theorem code_length_bounds fd :
  2 ≤ length fd → NoDup fd.*1 →
  ∃ self,
    build_code_tables new_HuffmanCoding fd = Some self ∧
    ∀ k, k ∈ fd.*1 → 1 ≤ length (code_of self k) ≤ length fd - 1.
Proof.
  intros Hlen Hnd.
  assert (fd ≠ []) as Hne by (intros ->; simpl in Hlen; lia).
  destruct (build_code_tables_prefix_free fd Hne Hnd)
    as (root & self & Hrun & Hh & Hl & _ & Hcode & _ & Hpf).
  exists self. split; [done |]. intros k Hk. split.
  - destruct fd as [| [a fa] [| [b fb] fd']]; try (simpl in Hlen; lia).
    rewrite !fmap_cons in Hnd. simpl in Hnd.
    apply NoDup_cons in Hnd as [Hab _].
    assert (a ≠ b) as Hne' by (intros ->; apply Hab; by left).
    assert (code_of self k ≠ []) as Hnil.
    { apply (prefix_free_on_nonempty _ _ a b Hpf); [| | done | done].
      - rewrite fmap_cons. by left.
      - rewrite !fmap_cons. right. by left. }
    destruct (code_of self k); [done | simpl; lia].
  - rewrite <- Hl in Hk. apply leaf_codes_of_key in Hk as (f & p & Hkp).
    rewrite (Hcode k f p Hkp).
    pose proof (leaf_codes_depth root [] (k, f, p) Hh Hkp) as Hd.
    simpl in Hd. apply Permutation_length in Hl.
    unfold leaves in Hl. rewrite length_fmap in Hl. lia.
Qed.

(** ** [__decode_text] *)

Lemma decode_step_invariant self (st : list char * list bool) (bits : list bool) :
  let st' := foldl (decode_step self) st bits in
  length st'.1 + length st'.2 ≤ length st.1 + length st.2 + length bits ∧
  ∀ c, c ∈ st'.1 →
       c ∈ st.1 ∨ ∃ p, p ≠ [] ∧ reverse_codes_hash_table self !! p = Some c.
Proof.
  revert st. induction bits as [| b bits IH]; intros st; simpl.
  { split; [lia | by left]. }
  destruct (IH (decode_step self st b)) as [IHlen IHin].
  assert (length (decode_step self st b).1 + length (decode_step self st b).2
          ≤ length st.1 + length st.2 + 1 ∧
          ∀ c, c ∈ (decode_step self st b).1 →
               c ∈ st.1 ∨
               ∃ p, p ≠ [] ∧ reverse_codes_hash_table self !! p = Some c)
    as [Hlen Hin].
  { unfold decode_step.
    destruct (reverse_codes_hash_table self !! (st.2 ++ [b])) as [c |] eqn:Hc; simpl.
    - split; [rewrite length_app; simpl; lia |].
      intros c' [Hc' | ->%list_elem_of_singleton]%elem_of_app; [by left |].
      right. exists (st.2 ++ [b]). split; [| done].
      intros [_ ?]%app_eq_nil. done.
    - split; [rewrite length_app; simpl; lia | by left]. }
  split; [lia |].
  intros c Hc. destruct (IHin c Hc) as [Hc' | ?]; [| by right]. by apply Hin.
Qed.

(** X15. [__decode_text] never emits more symbols than it reads bits, and every
    symbol it emits is the value of a non-empty key of the reverse table. *)
Theorem __decode_text_sound self (bits : list bool) :
  length (__decode_text self bits) ≤ length bits ∧
  ∀ c, c ∈ __decode_text self bits →
       ∃ p, p ≠ [] ∧ reverse_codes_hash_table self !! p = Some c.
Proof.
  unfold __decode_text, decode_scan.
  destruct (decode_step_invariant self ([], []) bits) as [Hlen Hin].
  simpl in *. split; [lia |].
  intros c Hc. destruct (Hin c Hc) as [[]%elem_of_nil | ?]; done.
Qed.

Lemma decode_scan_from self (out : list char) (cand bits : list bool) :
  foldl (decode_step self) (out, cand) bits =
  (out ++ (foldl (decode_step self) ([], cand) bits).1,
   (foldl (decode_step self) ([], cand) bits).2).
Proof.
  revert out cand. induction bits as [| b bits IH]; intros out cand; simpl.
  { by rewrite app_nil_r. }
  unfold decode_step at 2 4 6. simpl.
  destruct (reverse_codes_hash_table self !! (cand ++ [b])) as [c |].
  - rewrite (IH (out ++ [c])), (IH [c]). simpl. by rewrite <- app_assoc.
  - rewrite (IH out). done.
Qed.

(** X16. Decoding composes at a code boundary: when the scan of [bits1] ends on
    the empty candidate, the text of [bits1 ++ bits2] is the text of [bits1]
    followed by the text of [bits2]. *)
Theorem __decode_text_app self (bits1 bits2 : list bool) :
  (decode_scan self bits1).2 = [] →
  __decode_text self (bits1 ++ bits2)
  = __decode_text self bits1 ++ __decode_text self bits2.
Proof.
  unfold __decode_text, decode_scan. intros Hend.
  rewrite decode_scan_app.
  destruct (foldl (decode_step self) ([], []) bits1) as [out cand].
  simpl in *. subst cand. by rewrite decode_scan_from.
Qed.

(** X17. The tables are not written in the file: an object that has not
    compressed decodes every non-empty file to the empty text. *)
Theorem decompress_without_tables (file : list N) :
  file ≠ [] →
  decompress (new_HuffmanCoding (char := char)) file = Some [].
Proof.
  intros Hne. destruct file as [| b file]; [done |].
  destruct (read_bits_nonempty b file) as (c & bits & Hhead).
  unfold decompress, __remove_pad. rewrite Hhead. simpl. f_equal.
  match goal with |- __decode_text _ ?bs = _ => generalize bs end.
  intros bs.
  destruct (decode_step_invariant new_HuffmanCoding ([], []) bs) as [_ Hin].
  unfold __decode_text, decode_scan.
  destruct (foldl (decode_step new_HuffmanCoding) ([], []) bs).1 as [| x out];
    [done |].
  destruct (Hin x ltac:(by left)) as [[]%elem_of_nil | (p & _ & Hp)].
  simpl in Hp. by rewrite lookup_empty in Hp.
Qed.

End tables_more.

(** ** Bytes and bit strings *)

(** X12. Reading bytes as a bit string and packing the bit string gives the bytes
    back. *)
Theorem read_bits_then_pack (bs : list N) :
  bytes bs = Some bs → __encoded_to_bin (read_bits bs) = Some bs.
Proof.
  induction bs as [| b bs IH]; intros Hb; [done |].
  assert ((b < 256)%N) as Hlt.
  { unfold bytes in Hb. simpl in Hb.
    destruct (b <? 256)%N eqn:Hlt; [by apply N.ltb_lt | done]. }
  rewrite read_bits_cons, __encoded_to_bin_app by (by apply format_08b_small).
  rewrite int2_format_08b. simpl.
  rewrite IH; [done |]. by apply bytes_tail in Hb.
Qed.

(** X13. Packing a bit string of whole bytes and reading the bytes gives the bit
    string back. *)
Theorem pack_then_read_bits (encoded_text : list bool) :
  length encoded_text mod 8 = 0 →
  ∃ bs,
    __encoded_to_bin encoded_text = Some bs ∧
    bytes bs = Some bs ∧
    length bs = length encoded_text / 8 ∧
    read_bits bs = encoded_text.
Proof.
  intros Hmod.
  pose proof (Nat.div_mod_eq (length encoded_text) 8) as Hdm.
  destruct (__encoded_to_bin_read_bits (length encoded_text / 8) encoded_text)
    as (bs & Hpack & Hbytes & Hread); [lia |].
  exists bs. split_and!; [done | done | | done].
  pose proof (read_bits_length bs Hbytes) as Hlen.
  rewrite Hread in Hlen. lia.
Qed.

(** X14. [__remove_pad] on a bit string with a whole header byte: a header of 0
    gives the empty string; a header [pad >= 1] removes the header and the
    last [pad] bits, and gives the empty string when there are fewer. *)
Theorem __remove_pad_strips (header payload : list bool) (pad : N) :
  length header = 8 → int2 header = Some pad →
  __remove_pad (header ++ payload) =
    Some (if decide (pad = 0%N) then []
          else take (length payload - N.to_nat pad) payload).
Proof.
  intros Hlen Hpad. unfold __remove_pad.
  rewrite py_slice_0_8, take_app_length' by done. rewrite Hpad. simpl. f_equal.
  destruct (decide (pad = 0%N)) as [-> | Hne].
  - apply py_slice_8_0.
  - rewrite py_slice_8_neg by lia.
    rewrite <- Hlen at 2. rewrite drop_app_length, length_app, Hlen.
    f_equal. lia.
Qed.

Section reuse.
Context `{Countable char}.
Implicit Types (self h : HuffmanCoding char) (text : list char)
  (fd : list (char * nat)).

(** ** Using the object again *)

Lemma record_leaf_again (L : list (char * nat * list bool))
    (t : tables (char := char)) :
  (∀ k f p, (k, f, p) ∈ L → t.1 !! k = Some p ∧ t.2 !! p = Some k) →
  foldl record_leaf t L = t.
Proof.
  induction L as [| [[k f] p] L IH]; intros Hall; [done |].
  cbn [foldl]. destruct (Hall k f p ltac:(by left)) as [Hk Hp].
  assert (record_leaf t (k, f, p) = t) as ->.
  { unfold record_leaf. simpl. rewrite !insert_id by done. by destruct t. }
  apply IH. intros k' f' p' Hin. apply (Hall k' f' p'). by right.
Qed.

Lemma build_code_tables_from self fd root :
  min_heap self = [] →
  __build_tree (__build_heap new_HuffmanCoding fd)
    = Some (mkHuffmanCoding [root] ∅ ∅) →
  Huff root →
  build_code_tables self fd =
    Some (mkHuffmanCoding []
            (foldl record_leaf
               (codes_hash_table self, reverse_codes_hash_table self)
               (leaf_codes root [])).1
            (foldl record_leaf
               (codes_hash_table self, reverse_codes_hash_table self)
               (leaf_codes root [])).2).
Proof.
  intros Hheap Htree Hh.
  unfold build_code_tables, __build_tree, __build_heap, set_min_heap in *.
  simpl in *. rewrite Hheap.
  destruct (__build_tree_loop _ _) as [heap |]; [| done].
  simpl in *. injection Htree as ->. simpl.
  unfold __build_codes. simpl. by rewrite __build_codes_node_leaf_codes.
Qed.

(** X18. [compress] a second time on the same object and the same text: the heap
    was left empty and the tables already hold the codes, so the bytes and
    the object are the same. *)
Theorem compress_again text (compressed : list N) h :
  compress new_HuffmanCoding text = Some (compressed, h) →
  compress h text = Some (compressed, h).
Proof.
  intros Hrun.
  destruct (compress_inv _ _ _ _ Hrun) as (body & Htables & Hbody).
  assert (text ≠ []) as Hne by (intros ->; done).
  destruct (build_code_tables_run (Counter text) (Counter_nonempty text Hne))
    as (root & Htree & Hrun' & Hh & Hl & _).
  assert (h = mkHuffmanCoding [] (tables_of root).1 (tables_of root).2) as Hh'
    by congruence.
  assert (NoDup (leaves root).*1) as Hnd by (rewrite Hl; apply Counter_NoDup).
  destruct (tables_of_lookup root Hh Hnd) as (Hin & _ & _).
  assert (build_code_tables h (Counter text) = Some h) as Hagain.
  { rewrite (build_code_tables_from h (Counter text) root); [| by subst h | done | done].
    rewrite record_leaf_again; [by subst h |].
    intros k f p Hkp. subst h. simpl. by apply (Hin k f p). }
  rewrite (compress_unfold _ _ _ Hagain).
  by rewrite <- (compress_unfold _ _ _ Htables).
Qed.

End reuse.

Section decoder_invariant.
Context `{Countable char}.
Implicit Types (self h : HuffmanCoding char) (text : list char)
  (fd : list (char * nat)) (node root : Node char).

(** ** The candidate of [__decode_text] walks down the tree *)

Lemma walk_app node (p q : list bool) :
  walk node (p ++ q) = match walk node p with
                       | Some n => walk n q
                       | None => None
                       end.
Proof.
  revert node. induction p as [| b p IH]; intros node; [reflexivity |].
  simpl. destruct (if b then right node else left node); [apply IH | reflexivity].
Qed.

Lemma walk_Huff node (p : list bool) n :
  Huff node → walk node p = Some n → Huff n.
Proof.
  intros Hh. revert p. induction Hh as [k f | l r Hl IHl Hr IHr]; intros p Hw.
  - destruct p as [| [] p]; simpl in Hw; [| done | done].
    injection Hw as <-. constructor.
  - destruct p as [| [] p]; simpl in Hw.
    + injection Hw as <-. by constructor.
    + by apply (IHr p).
    + by apply (IHl p).
Qed.

Lemma leaf_codes_walk node (pre : list bool) k f (p : list bool) :
  Huff node →
  (k, f, p) ∈ leaf_codes node pre ↔
  ∃ q, p = pre ++ q ∧ walk node q = Some (mkNode (Some k) f None None).
Proof.
  intros Hh. revert pre.
  induction Hh as [k0 f0 | l r Hl IHl Hr IHr]; intros pre.
  - simpl. rewrite list_elem_of_singleton. split.
    + intros [= -> -> ->]. exists []. by rewrite app_nil_r.
    + intros (q & -> & Hw). destruct q as [| [] q]; simpl in Hw; [| done | done].
      injection Hw as -> ->. by rewrite app_nil_r.
  - rewrite leaf_codes_node, elem_of_app, IHl, IHr. split.
    + intros [(q & -> & Hw) | (q & -> & Hw)].
      * exists (false :: q). by rewrite <- app_assoc.
      * exists (true :: q). by rewrite <- app_assoc.
    + intros (q & -> & Hw). destruct q as [| [] q]; simpl in Hw.
      * done.
      * right. exists q. by rewrite <- app_assoc.
      * left. exists q. by rewrite <- app_assoc.
Qed.

Lemma Huff_leaf_below node :
  Huff node →
  ∃ q k f, walk node q = Some (mkNode (Some k) f None None) ∧
           (key node = None → q ≠ []).
Proof.
  induction 1 as [k f | l r Hl IHl Hr IHr].
  - exists [], k, f. done.
  - destruct IHl as (q & k & f & Hw & _). exists (false :: q), k, f. done.
Qed.

(** During the scan the candidate is the path to an internal node. *)
Lemma decode_scan_walk self root (bits : list bool) (st : list char * list bool) :
  Huff root → key root = None →
  (∀ k f p, (k, f, p) ∈ leaf_codes root [] →
            reverse_codes_hash_table self !! p = Some k) →
  (∀ p, p ∉ (leaf_codes root []).*2 →
        reverse_codes_hash_table self !! p = None) →
  (∃ n, walk root st.2 = Some n ∧ key n = None) →
  ∃ n, walk root (foldl (decode_step self) st bits).2 = Some n ∧ key n = None.
Proof.
  intros Hh Hroot Hin Hout. revert st.
  induction bits as [| b bits IH]; intros st Hst; [done |].
  cbn [foldl]. apply IH. clear IH.
  destruct Hst as (n & Hw & Hn).
  pose proof (walk_Huff root _ n Hh Hw) as Hhn.
  destruct Hhn as [k f | l r Hl Hr]; [done |].
  set (child := if b then r else l).
  assert (walk root (st.2 ++ [b]) = Some child) as Hwc.
  { rewrite walk_app, Hw. simpl. by destruct b. }
  assert (Huff child) as Hhc by (unfold child; by destruct b).
  unfold decode_step.
  destruct Hhc as [k f | l' r' Hl' Hr'].
  - rewrite (Hin k f (st.2 ++ [b])).
    + simpl. by exists root.
    + apply leaf_codes_walk; [done |]. by exists (st.2 ++ [b]).
  - rewrite Hout.
    + simpl. eexists. by split.
    + intros ([[k f] p] & Hp & Hkp)%list_elem_of_fmap. simpl in Hp. subst p.
      apply leaf_codes_walk in Hkp as (q & Hq & Hwq); [| done].
      simpl in Hq. subst q. congruence.
Qed.

(** X19. With at least two symbols, whatever bits are scanned, the candidate left
    at the end is a proper prefix of the code of some symbol: the bits that
    [__decode_text] drops are always the beginning of a code. *)
Theorem decode_candidate_is_code_prefix fd :
  2 ≤ length fd → NoDup fd.*1 →
  ∃ self,
    build_code_tables new_HuffmanCoding fd = Some self ∧
    ∀ bits : list bool,
      ∃ k, k ∈ fd.*1 ∧
           (decode_scan self bits).2 `prefix_of` code_of self k ∧
           (decode_scan self bits).2 ≠ code_of self k.
Proof.
  intros Hlen Hnd.
  assert (fd ≠ []) as Hne by (intros ->; simpl in Hlen; lia).
  destruct (build_code_tables_spec fd Hne Hnd)
    as (root & self & Hrun & Hh & Hl & _ & Hin & _ & Hout).
  exists self. split; [done |]. intros bits.
  assert (key root = None) as Hroot.
  { destruct Hh as [k f | l r Hl' Hr']; [| done].
    apply Permutation_length in Hl. unfold leaves in Hl. simpl in Hl. lia. }
  destruct (decode_scan_walk self root bits ([], []) Hh Hroot)
    as (n & Hw & Hn).
  - intros k f p Hkp. by apply (Hin k f p).
  - done.
  - by exists root.
  - fold (decode_scan self bits) in Hw.
    destruct (Huff_leaf_below n (walk_Huff root _ n Hh Hw))
      as (q & k & f & Hwq & Hq).
    assert ((k, f, (decode_scan self bits).2 ++ q) ∈ leaf_codes root []) as Hkp.
    { apply leaf_codes_walk; [done |]. eexists. split; [done |].
      by rewrite walk_app, Hw. }
    exists k. split_and!.
    + rewrite <- Hl. unfold leaves. apply list_elem_of_fmap.
      exists (k, f). split; [done |]. apply list_elem_of_fmap.
      by eexists (k, f, _).
    + unfold code_of. rewrite (proj1 (Hin _ _ _ Hkp)). simpl.
      by apply prefix_app_r.
    + unfold code_of. rewrite (proj1 (Hin _ _ _ Hkp)). simpl.
      intros Heq. apply (f_equal length) in Heq. rewrite length_app in Heq.
      specialize (Hq Hn). destruct q; [done | simpl in Heq; lia].
Qed.

End decoder_invariant.

(** ** The round trip *)

Section round_trip.
Context `{Countable char}.


End round_trip.

(** ** Instances on concrete texts *)


(** [__build_tree_root] on the frequency table of ["AABBBCCCC"]. *)
Lemma __build_tree_root_witness :
  AABBBCCCC_freq ≠ [] ∧
  ∃ root,
    __build_tree (__build_heap new_HuffmanCoding AABBBCCCC_freq)
      = Some (mkHuffmanCoding [root] ∅ ∅) ∧
    leaves root ≡ₚ AABBBCCCC_freq ∧
    freq root = sum_list AABBBCCCC_freq.*2.
Proof.
  exact (conj AABBBCCCC_freq_nonempty
           (__build_tree_root _ AABBBCCCC_freq_nonempty)).
Defined.

(** [code_tables_inverse] on the frequency table of ["AABBBCCCC"]. *)
Lemma code_tables_inverse_witness :
  AABBBCCCC_freq ≠ [] ∧ NoDup AABBBCCCC_freq.*1 ∧
  ∃ self,
    build_code_tables new_HuffmanCoding AABBBCCCC_freq = Some self ∧
    min_heap self = [] ∧
    ∀ k p, codes_hash_table self !! k = Some p ↔
           reverse_codes_hash_table self !! p = Some k.
Proof.
  exact (conj AABBBCCCC_freq_nonempty (conj AABBBCCCC_freq_NoDup
           (code_tables_inverse _ AABBBCCCC_freq_nonempty AABBBCCCC_freq_NoDup))).
Defined.

(** The frequency table of ["AABBBCCCC"] has three symbols. *)
Lemma AABBBCCCC_freq_two : 2 ≤ length AABBBCCCC_freq.
Proof. simpl. lia. Defined.

(** [code_length_bounds] on the frequency table of ["AABBBCCCC"]. *)
Lemma code_length_bounds_witness :
  2 ≤ length AABBBCCCC_freq ∧ NoDup AABBBCCCC_freq.*1 ∧
  ∃ self,
    build_code_tables new_HuffmanCoding AABBBCCCC_freq = Some self ∧
    ∀ k, k ∈ AABBBCCCC_freq.*1 →
         1 ≤ length (code_of self k) ≤ length AABBBCCCC_freq - 1.
Proof.
  exact (conj AABBBCCCC_freq_two (conj AABBBCCCC_freq_NoDup
           (code_length_bounds _ AABBBCCCC_freq_two AABBBCCCC_freq_NoDup))).
Defined.

(** [compressed_size] on ["AABBBCCCC"]: fourteen code bits, three bytes. *)
Lemma compressed_size_witness :
  compress new_HuffmanCoding (text_of "AABBBCCCC")
    = Some ([2; 175; 192]%N, ABC_tables) ∧
  ∃ body,
    concat_codes ABC_tables (text_of "AABBBCCCC") = Some body ∧
    length [2; 175; 192]%N = 2 + length body / 8 ∧
    Forall (fun b => (b < 256)%N) [2; 175; 192]%N.
Proof.
  assert (compress new_HuffmanCoding (text_of "AABBBCCCC")
          = Some ([2; 175; 192]%N, ABC_tables))
    as Hrun by (vm_compute; reflexivity).
  exact (conj Hrun (compressed_size _ _ _ _ Hrun)).
Defined.

(** [compress_fewest_bits] on ["AABBBCCCC"]. *)
Lemma compress_fewest_bits_witness :
  text_of "AABBBCCCC" ≠ [] ∧
  ∃ compressed h,
    compress new_HuffmanCoding (text_of "AABBBCCCC") = Some (compressed, h) ∧
    concat_codes h (text_of "AABBBCCCC")
      = Some (concat (code_of h <$> text_of "AABBBCCCC")) ∧
    ∀ code : ascii → list bool,
      prefix_free_on (text_of "AABBBCCCC") code →
      length (concat (code_of h <$> text_of "AABBBCCCC"))
      ≤ length (concat (code <$> text_of "AABBBCCCC")).
Proof.
  assert (text_of "AABBBCCCC" ≠ []) as Hne by done.
  exact (conj Hne (compress_fewest_bits _ Hne)).
Defined.

(** [read_bits_then_pack] on the bytes 2, 175, 192. *)
Lemma read_bits_then_pack_witness :
  bytes [2; 175; 192]%N = Some [2; 175; 192]%N ∧
  __encoded_to_bin (read_bits [2; 175; 192]%N) = Some [2; 175; 192]%N.
Proof.
  assert (bytes [2; 175; 192]%N = Some [2; 175; 192]%N) as Hb by reflexivity.
  exact (conj Hb (read_bits_then_pack _ Hb)).
Defined.

(** [pack_then_read_bits] on the sixteen bits of the bytes 175, 192. *)
Lemma pack_then_read_bits_witness :
  length (read_bits [175; 192]%N) mod 8 = 0 ∧
  ∃ bs,
    __encoded_to_bin (read_bits [175; 192]%N) = Some bs ∧
    bytes bs = Some bs ∧
    length bs = length (read_bits [175; 192]%N) / 8 ∧
    read_bits bs = read_bits [175; 192]%N.
Proof.
  assert (length (read_bits [175; 192]%N) mod 8 = 0) as Hmod by reflexivity.
  exact (conj Hmod (pack_then_read_bits _ Hmod)).
Defined.

(** [__remove_pad_strips] on the header of 2 and the bits of 175, 192. *)
Lemma __remove_pad_strips_witness :
  length (format_08b 2) = 8 ∧ int2 (format_08b 2) = Some 2%N ∧
  __remove_pad (format_08b 2 ++ read_bits [175; 192]%N) =
    Some (if decide (2%N = 0%N) then []
          else take (length (read_bits [175; 192]%N) - N.to_nat 2)
                    (read_bits [175; 192]%N)).
Proof.
  assert (length (format_08b 2) = 8) as Hlen by reflexivity.
  assert (int2 (format_08b 2) = Some 2%N) as Hpad by reflexivity.
  exact (conj Hlen (conj Hpad (__remove_pad_strips _ _ _ Hlen Hpad))).
Defined.

(** [__decode_text_app] with the tables of ["AABBBCCCC"], on ["10"] and
    ["0"]. *)
Lemma __decode_text_app_witness :
  (decode_scan ABC_tables [true; false]).2 = [] ∧
  __decode_text ABC_tables ([true; false] ++ [false])
  = __decode_text ABC_tables [true; false] ++ __decode_text ABC_tables [false].
Proof.
  assert ((decode_scan ABC_tables [true; false]).2 = []) as Hend
    by (vm_compute; reflexivity).
  exact (conj Hend (__decode_text_app ABC_tables _ [false] Hend)).
Defined.

(** [decompress_without_tables] on the stream of ["AABBBCCCC"]. *)
Lemma decompress_without_tables_witness :
  [2; 175; 192]%N ≠ [] ∧
  decompress (new_HuffmanCoding (char := ascii)) [2; 175; 192]%N = Some [].
Proof.
  assert ([2; 175; 192]%N ≠ []) as Hne by done.
  exact (conj Hne (decompress_without_tables (char := ascii) _ Hne)).
Defined.

(** [compress_again] on ["AABBBCCCC"]. *)
Lemma compress_again_witness :
  compress new_HuffmanCoding (text_of "AABBBCCCC")
    = Some ([2; 175; 192]%N, ABC_tables) ∧
  compress ABC_tables (text_of "AABBBCCCC") = Some ([2; 175; 192]%N, ABC_tables).
Proof.
  assert (compress new_HuffmanCoding (text_of "AABBBCCCC")
          = Some ([2; 175; 192]%N, ABC_tables))
    as Hrun by (vm_compute; reflexivity).
  exact (conj Hrun (compress_again _ _ _ Hrun)).
Defined.

(** [decode_candidate_is_code_prefix] on the frequency table of
    ["AABBBCCCC"]. *)
Lemma decode_candidate_is_code_prefix_witness :
  2 ≤ length AABBBCCCC_freq ∧ NoDup AABBBCCCC_freq.*1 ∧
  ∃ self,
    build_code_tables new_HuffmanCoding AABBBCCCC_freq = Some self ∧
    ∀ bits : list bool,
      ∃ k, k ∈ AABBBCCCC_freq.*1 ∧
           (decode_scan self bits).2 `prefix_of` code_of self k ∧
           (decode_scan self bits).2 ≠ code_of self k.
Proof.
  exact (conj AABBBCCCC_freq_two (conj AABBBCCCC_freq_NoDup
           (decode_candidate_is_code_prefix _ AABBBCCCC_freq_two
              AABBBCCCC_freq_NoDup))).
Defined.
